(** * sizeCounter.py: a verified model

    The script walks the working directory, keeps the files whose name ends
    with [.cs] and whose first 20 characters contain [///Countable], adds up
    their [st_size] and prints one report line per kept file.

    The development is a shallow embedding: Python [str] values are lists of
    code points, the interpreter state that the script touches (the global
    [size] and standard output) is an explicit record, and exceptions are the
    left summand of a small state-and-exception monad in which the state
    survives a raise, as it does in Python.  Opening, reading, dividing and
    printing can each raise. *)

From Stdlib Require Import ZArith NArith QArith Qabs List String Ascii Bool Lia.
From Stdlib Require Import DecimalString Permutation.
Import ListNotations.

Local Open Scope Z_scope.

(** ** Python strings *)

Module PyStr.

(** A character is a Unicode code point, a [str] is a sequence of them. *)
Definition char := N.
Definition str := list char.

(** A literal of the source text. *)
Definition lit (s : string) : str :=
  List.map N_of_ascii (list_ascii_of_string s).

Fixpoint eqb (a b : str) : bool :=
  match a, b with
  | [], [] => true
  | x :: a', y :: b' => N.eqb x y && eqb a' b'
  | _, _ => false
  end.

(** [s.startswith(pre)] *)
Fixpoint startswith (s pre : str) {struct pre} : bool :=
  match pre, s with
  | [], _ => true
  | _ :: _, [] => false
  | x :: pre', y :: s' => N.eqb x y && startswith s' pre'
  end.

(** [s.endswith(suf)]: the last [len(suf)] characters of [s] are [suf]. *)
Definition endswith (s suf : str) : bool :=
  (List.length suf <=? List.length s)%nat
  && eqb (skipn (List.length s - List.length suf) s) suf.

(** [sub in s]: [sub] occurs in [s] as a contiguous block. *)
Fixpoint contains (sub s : str) : bool :=
  startswith s sub
  || match s with
     | [] => false
     | _ :: s' => contains sub s'
     end.

(** [f.read(n)] on decoded text and the slice [s[:n]]. *)
Definition take (n : nat) (s : str) : str := firstn n s.

(** [sub] occurs in [s] at offset [i], i.e. [s[i : i + len(sub)] == sub]. *)
Definition occurs_at (sub s : str) (i : nat) : Prop :=
  firstn (List.length sub) (skipn i s) = sub.

End PyStr.
Import PyStr.

(** ** [os.path.join], for one component

    The POSIX version.  On Windows the separator is a backslash; nothing
    below depends on the separator except the paths shown in the examples. *)

Definition sep : char := 47%N.

Definition join (a b : str) : str :=
  if startswith b [sep] then b
  else if (match a with [] => true | _ => false end) || endswith a [sep]
       then a ++ b
       else a ++ sep :: b.

(** ** Exceptions, files and the directory tree *)

Inductive exn :=
| PermissionError
| FileNotFoundError
| IsADirectoryError
| UnicodeDecodeError
| UnicodeEncodeError
| OverflowError
| OSError.

(** What the script can observe of a file: whether [open(p, "r")] raises,
    whether the first read raises (undecodable bytes), the decoded text, and
    the size [os.stat] reports.  The size is the on-disk byte count and is unrelated
    to the number of decoded characters. *)
Record file := {
  f_open : option exn;   (* [Some e]: [open(p, "r")] raises [e] *)
  f_text : exn + str;    (* [inl e]: [f.read] raises [e]; [inr t]: the text *)
  st_size : Z
}.

(** One triple yielded by [os.walk]. *)
Record walk_entry := {
  dirpath : str;
  dirnames : list str;
  filenames : list str
}.

(** The surroundings of the script: the sequence of triples that
    [os.walk(".")] yields, in the enumeration order of the platform, the
    files by path, and standard output, which may refuse a text:
    [print_error l = Some e] when writing [l] raises [e], as a strict UTF-8
    stream does with [UnicodeEncodeError] on a lone surrogate in a file
    name.  A refused text is not written, not even in part. *)
Record world := {
  os_walk : list walk_entry;
  fs : str -> option file;
  print_error : str -> option exn
}.

(** ** Interpreter state and the monad of the script *)

Record state := {
  size : Z;               (* the global accumulator *)
  stdout : list str       (* the text of each [print] call, oldest first *)
}.

Definition initial : state := {| size := 0; stdout := [] |}.

Definition M (A : Type) : Type := state -> (exn + A) * state.

Definition ret {A} (x : A) : M A := fun s => (inr x, s).

Definition raise {A} (e : exn) : M A := fun s => (inl e, s).

Definition bind {A B} (c : M A) (k : A -> M B) : M B :=
  fun s =>
    match c s with
    | (inl e, s') => (inl e, s')
    | (inr x, s') => k x s'
    end.

Declare Scope py_scope.
Delimit Scope py_scope with py.
Notation "x <- c ;; k" := (bind c (fun x => k))
  (at level 100, c at next level, right associativity) : py_scope.
Notation "c ;; k" := (bind c (fun _ => k))
  (at level 100, right associativity) : py_scope.
Local Open Scope py_scope.

Definition lift {A} (r : exn + A) : M A :=
  match r with
  | inl e => raise e
  | inr x => ret x
  end.

Definition get_size : M Z := fun s => (inr (size s), s).

Definition set_size (v : Z) : M unit :=
  fun s => (inr tt, {| size := v; stdout := stdout s |}).

Definition print (w : world) (l : str) : M unit :=
  fun s =>
    match print_error w l with
    | Some e => (inl e, s)
    | None => (inr tt, {| size := size s; stdout := stdout s ++ [l] |})
    end.

Definition when (b : bool) (c : M unit) : M unit :=
  if b then c else ret tt.

(** A [for] statement over a list. *)
Fixpoint for_ {A} (l : list A) (body : A -> M unit) : M unit :=
  match l with
  | [] => ret tt
  | x :: l' => body x ;; for_ l' body
  end.

(** ** [int / 1024] and the [.2g] presentation type

    A Python float is modelled by the exact rational value of the double.
    Only quotients of an integer by [1024] arise, so the double is the
    integer rounded to 53 significant bits (ties to even) over [1024], and
    the division raises [OverflowError] when that exceeds the double range. *)

Module PyFloat.

(** [num / den] rounded to the nearest integer, ties to even. *)
Definition round_half_even (num den : Z) : Z :=
  let q := num / den in
  let r := num mod den in
  if (den <? 2 * r) || ((2 * r =? den) && Z.odd q) then q + 1 else q.

(** A non-negative integer rounded to 53 significant bits, ties to even: an
    integer of [53 + sh] bits keeps its top 53 bits, rounded. *)
Definition round53 (a : Z) : Z :=
  let sh := Z.log2 a - 52 in
  if sh <=? 0 then a
  else round_half_even a (2 ^ sh) * 2 ^ sh.

(** [n / 1024] for an [int] [n]. *)
Definition truediv_1024 (n : Z) : exn + Q :=
  let r := round53 (Z.abs n) in
  if 2 ^ 1034 <=? r then inl OverflowError
  else inr (Qmake (Z.sgn n * r) 1024).

(** Number of decimal digits of [n >= 1]. *)
Fixpoint ndigits_aux (fuel : nat) (n : Z) : Z :=
  match fuel with
  | O => 1
  | S k => if n <? 10 then 1 else 1 + ndigits_aux k (n / 10)
  end.

Definition ndigits (n : Z) : Z := ndigits_aux (Z.to_nat (Z.log2 n)) n.

(** [10 ^ k <= n / d], for positive [n] and [d] and any integer [k]. *)
Definition ge_pow10 (n d k : Z) : bool :=
  d * 10 ^ Z.max 0 k <=? n * 10 ^ Z.max 0 (- k).

(** The same as a proposition. *)
Definition pow10_le (k n d : Z) : Prop :=
  d * 10 ^ Z.max 0 k <= n * 10 ^ Z.max 0 (- k).

(** The decimal exponent [e] of [n / d]: [10 ^ e <= n / d < 10 ^ (e + 1)]. *)
Definition exponent10 (n d : Z) : Z :=
  let k := ndigits n - ndigits d in
  if ge_pow10 n d k then k else k - 1.

(** A float correctly rounded to two significant decimal digits:
    [(-1)^neg * mant * 10 ^ (exp10 - 1)] with [10 <= mant <= 99],
    or [mant = 0] for zero. *)
Record dec2 := {
  neg : bool;
  mant : Z;
  exp10 : Z
}.

Definition to_dec2 (v : Q) : dec2 :=
  let n := Z.abs (Qnum v) in
  let d := Zpos (Qden v) in
  if n =? 0 then {| neg := false; mant := 0; exp10 := 0 |}
  else
    let e := exponent10 n d in
    let m := round_half_even (n * 10 ^ Z.max 0 (1 - e))
                             (d * 10 ^ Z.max 0 (e - 1)) in
    if m =? 100
    then {| neg := Qnum v <? 0; mant := 10; exp10 := e + 1 |}
    else {| neg := Qnum v <? 0; mant := m; exp10 := e |}.

(** The rational a [dec2] denotes. *)
Definition dec2_value (x : dec2) : Q :=
  let a := Qmake (mant x * 10 ^ Z.max 0 (exp10 x - 1))
                 (Z.to_pos (10 ^ Z.max 0 (1 - exp10 x))) in
  if neg x then Qopp a else a.

(** One unit in the second significant digit of a [dec2]. *)
Definition unit2 (x : dec2) : Q :=
  dec2_value {| neg := false; mant := 1; exp10 := exp10 x |}.

(** [x] is [v] to two significant figures: two digits, the first of them not
    zero (or plain zero), at most half a unit of the second digit away. *)
Definition two_sig_figs (v : Q) (x : dec2) : Prop :=
  (mant x = 0 \/ 10 <= mant x <= 99)
  /\ (Qabs (v - dec2_value x) * 2 <= unit2 x)%Q.

Definition digit (d : Z) : char := Z.to_N (48 + d).

(** The significant digits, trailing zeros removed. *)
Definition digits_of (m : Z) : str :=
  if m mod 10 =? 0 then [digit (m / 10)]
  else [digit (m / 10); digit (m mod 10)].

Definition zeros (k : Z) : str := repeat (digit 0) (Z.to_nat k).

(** The exponent as [%+.02d] writes it. *)
Definition exp_field (e : Z) : str :=
  (if e <? 0 then lit "-" else lit "+")
  ++ (if Z.abs e <? 10 then [digit 0] else [])
  ++ lit (NilZero.string_of_uint (N.to_uint (Z.to_N (Z.abs e)))).

(** The text of a [dec2] under the [g] rules with precision 2: exponent
    form when the exponent is below [-4] or at least [2], fixed form
    otherwise, no trailing zeros and no bare decimal point. *)
Definition render (x : dec2) : str :=
  let ds := digits_of (mant x) in
  let decpt := exp10 x + 1 in
  (if neg x then lit "-" else [])
  ++ (if (decpt <=? -4) || (2 <? decpt)
      then firstn 1 ds
           ++ (match skipn 1 ds with [] => [] | t => lit "." ++ t end)
           ++ lit "e" ++ exp_field (exp10 x)
      else if decpt <=? 0
      then lit "0." ++ zeros (- decpt) ++ ds
      else if Z.of_nat (List.length ds) <=? decpt
      then ds ++ zeros (decpt - Z.of_nat (List.length ds))
      else firstn (Z.to_nat decpt) ds
           ++ lit "." ++ skipn (Z.to_nat decpt) ds).

(** [format(v, ".2g")] *)
Definition format_2g (v : Q) : str := render (to_dec2 v).

End PyFloat.
Import PyFloat.

(** ** The script *)

Definition marker : str := lit "///Countable".

(** [open(p, "r")] *)
Definition open_r (w : world) (p : str) : M file :=
  match fs w p with
  | None => raise FileNotFoundError
  | Some f =>
      match f_open f with
      | Some e => raise e
      | None => ret f
      end
  end.

(** [f.read(n)] on a freshly opened text file. *)
Definition read (f : file) (n : nat) : M str :=
  match f_text f with
  | inl e => raise e
  | inr t => ret (take n t)
  end.

(** [os.stat(p)] *)
Definition os_stat (w : world) (p : str) : M file :=
  match fs w p with
  | None => raise FileNotFoundError
  | Some f => ret f
  end.

(** The text of the f-string. *)
Definition report_line (p : str) (a b : Q) : str :=
  lit "File " ++ p ++ lit ": " ++ format_2g a
  ++ lit " KiB, so far at: " ++ format_2g b ++ lit " KiB".

(** The body of the inner loop. *)
Definition visit (w : world) (dp name : str) : M unit :=
  when (endswith name (lit ".cs"))
    (let p := join dp name in
     f <- open_r w p ;;
     head <- read f 20 ;;
     when (contains marker head)
       (stats <- os_stat w p ;;
        old <- get_size ;;
        set_size (old + st_size stats) ;;
        a <- lift (truediv_1024 (st_size stats)) ;;
        total <- get_size ;;
        b <- lift (truediv_1024 total) ;;
        print w (report_line p a b))).

Definition main (w : world) : M unit :=
  for_ (os_walk w)
    (fun e => for_ (filenames e) (fun name => visit w (dirpath e) name)).

(** A whole run, from the initial interpreter state. *)
Definition run (w : world) : (exn + unit) * state := main w initial.

(** ** The specification side

    The words of the specification, as definitions of their own: the files in
    traversal order, the two filters, the matched files, and for the k-th
    matched file the report entry the script is expected to print. *)

Definition path_of (c : str * str) : str := join (fst c) (snd c).

(** Every file of the tree, in the order the script meets them. *)
Definition candidates (w : world) : list (str * str) :=
  flat_map (fun e => List.map (fun n => (dirpath e, n)) (filenames e))
           (os_walk w).

Definition has_extension (name : str) : bool := endswith name (lit ".cs").

(** The first 20 characters, read as text, contain the marker. *)
Definition has_marker (w : world) (p : str) : bool :=
  match fs w p with
  | Some {| f_open := None; f_text := inr t |} => contains marker (take 20 t)
  | _ => false
  end.

Definition countable (w : world) (c : str * str) : bool :=
  has_extension (snd c) && has_marker w (path_of c).

(** The paths of the matched files, in traversal order. *)
Definition matched (w : world) : list str :=
  List.map path_of (filter (countable w) (candidates w)).

Definition size_of (w : world) (p : str) : Z :=
  match fs w p with
  | Some f => st_size f
  | None => 0
  end.

Definition sum_sizes (w : world) (ps : list str) : Z :=
  fold_right Z.add 0 (List.map (size_of w) ps).

(** What a report line is about. *)
Record entry := {
  e_path : str;
  e_size : Z;       (* bytes of the file *)
  e_total : Z       (* bytes of the running total *)
}.

(** The k-th expected entry: the k-th matched file, its size, and the sum of
    the sizes of the matched files up to and including it. *)
Definition entry_at (w : world) (k : nat) : entry :=
  let p := nth k (matched w) [] in
  {| e_path := p;
     e_size := size_of w p;
     e_total := sum_sizes w (firstn (S k) (matched w)) |}.

Definition ledger (w : world) : list entry :=
  List.map (entry_at w) (seq 0 (List.length (matched w))).

(** The text of an entry; the two divisions are evaluated left to right. *)
Definition line_of (e : entry) : exn + str :=
  match truediv_1024 (e_size e) with
  | inl x => inl x
  | inr a =>
      match truediv_1024 (e_total e) with
      | inl x => inl x
      | inr b => inr (report_line (e_path e) a b)
      end
  end.

(** The line [l] is the text of the entry [e]. *)
Definition prints (e : entry) (l : str) : Prop := line_of e = inr l.

(** Opening or reading the file at [p] raises [e]. *)
Definition unreadable (w : world) (p : str) (e : exn) : Prop :=
  match fs w p with
  | None => e = FileNotFoundError
  | Some f =>
      f_open f = Some e \/ (f_open f = None /\ f_text f = inl e)
  end.

(** The entry for the file at [p] when the accumulator stands at [acc]. *)
Definition counted (w : world) (acc : Z) (p : str) : entry :=
  {| e_path := p; e_size := size_of w p; e_total := acc + size_of w p |}.

(** The entries with a running accumulator, as the loop builds them. *)
Fixpoint ledger_from (w : world) (acc : Z) (ps : list str) : list entry :=
  match ps with
  | [] => []
  | p :: ps' => counted w acc p :: ledger_from w (acc + size_of w p) ps'
  end.

(** The two loops as one, over the flattened traversal. *)
Definition visit_all (w : world) (cs : list (str * str)) : M unit :=
  for_ cs (fun c => visit w (fst c) (snd c)).

(** ** Sample trees *)

Definition text_file (t : str) (n : Z) : file :=
  {| f_open := None; f_text := inr t; st_size := n |}.

Definition locked_file (n : Z) : file :=
  {| f_open := Some PermissionError; f_text := inr []; st_size := n |}.

Definition binary_file (n : Z) : file :=
  {| f_open := None; f_text := inl UnicodeDecodeError; st_size := n |}.

Fixpoint lookup (l : list (str * file)) (p : str) : option file :=
  match l with
  | [] => None
  | (q, f) :: l' => if eqb p q then Some f else lookup l' p
  end.

(** A tree whose standard output accepts every text. *)
Definition tree (entries : list walk_entry) (files : list (str * file))
  : world :=
  {| os_walk := entries; fs := lookup files; print_error := fun _ => None |}.

(** The surrogate code points, which stand for undecodable bytes in file
    names and which UTF-8 does not encode. *)
Definition is_surrogate (c : char) : bool :=
  (55296 <=? c)%N && (c <=? 57343)%N.

(** Standard output with the [utf-8] encoding and [strict] errors. *)
Definition utf8_strict (l : str) : option exn :=
  if existsb is_surrogate l then Some UnicodeEncodeError else None.

(** The same tree with a strict UTF-8 standard output. *)
Definition strict_tree (entries : list walk_entry)
           (files : list (str * file)) : world :=
  {| os_walk := entries; fs := lookup files; print_error := utf8_strict |}.

Definition a_cs : str := lit "a.cs".
Definition b_cs : str := lit "b.cs".

(** One directory [d] holding [a.cs] (10240 bytes) and [b.cs] (5120 bytes),
    both starting with the marker, enumerated in the given [order]. *)
Definition two_files (d : str) (order : list str) (ra rb : str) : world :=
  tree [ {| dirpath := d; dirnames := []; filenames := order |} ]
       [ (join d a_cs, text_file (marker ++ ra) 10240);
         (join d b_cs, text_file (marker ++ rb) 5120) ].

(** A tree whose first [.cs] file is not valid text. *)
Definition broken_tree : world :=
  tree [ {| dirpath := lit "."; dirnames := [];
            filenames := [lit "bad.cs"; lit "good.cs"] |} ]
       [ (lit "./bad.cs", binary_file 7);
         (lit "./good.cs", text_file (lit "///Countable") 100) ].

(** A tree in which a matched file comes before one that cannot be opened,
    and another matched file after it. *)
Definition locked_tree : world :=
  tree [ {| dirpath := lit "."; dirnames := [];
            filenames := [lit "first.cs"; lit "secret.cs"; lit "last.cs"] |} ]
       [ (lit "./first.cs", text_file (lit "///Countable") 3072);
         (lit "./secret.cs", locked_file 10);
         (lit "./last.cs", text_file (lit "///Countable") 1024) ].

(** The name [caf<0xE9>.cs] in Latin-1 on a UTF-8 system, as Python shows it:
    the byte becomes the surrogate U+DCE9. *)
Definition odd_name : str := lit "caf" ++ [56553%N] ++ lit ".cs".

(** A matched file whose name cannot be printed, before another matched
    file, under a strict UTF-8 standard output. *)
Definition surrogate_tree : world :=
  strict_tree
    [ {| dirpath := lit "."; dirnames := [];
         filenames := [odd_name; lit "next.cs"] |} ]
    [ (lit "./" ++ odd_name, text_file (lit "///Countable") 1024);
      (lit "./next.cs", text_file (lit "///Countable") 2048) ].

(** A directory whose only file is named [.cs]. *)
Definition bare_tree : world :=
  tree [ {| dirpath := lit "."; dirnames := []; filenames := [lit ".cs"] |} ]
       [ (lit "./.cs", text_file (lit "///Countable bare") 256) ].

(** A tree with a subdirectory and files of every kind. *)
Definition sample_tree : world :=
  tree [ {| dirpath := lit "."; dirnames := [lit "src"];
            filenames := [lit "notes.txt"; lit "Main.cs"] |};
         {| dirpath := lit "./src"; dirnames := [];
            filenames := [lit "Match.cs"; lit "Late.cs"; lit "Team.cs"] |} ]
       [ (lit "./notes.txt", text_file (lit "///Countable") 64);
         (lit "./Main.cs", text_file (lit "///Countable main") 2048);
         (lit "./src/Match.cs", text_file (lit "// ///Countable") 1536);
         (lit "./src/Late.cs",
          text_file (lit "using System; ///Countable") 4096);
         (lit "./src/Team.cs", text_file (lit "///Countable team") 512) ].

(** ** What the script can tell apart

    Two files look the same to the script when opening them has the same
    outcome, [os.stat] reports the same size, and reading gives the same
    error or texts with the same first 20 characters. *)

Definition same_read (a b : exn + str) : Prop :=
  match a, b with
  | inl x, inl y => x = y
  | inr t, inr u => take 20 t = take 20 u
  | _, _ => False
  end.

Definition same_head (a b : option file) : Prop :=
  match a, b with
  | None, None => True
  | Some f, Some g =>
      f_open f = f_open g /\ st_size f = st_size g
      /\ same_read (f_text f) (f_text g)
  | _, _ => False
  end.

(** Every [.cs] file of the traversal can be opened and decoded. *)
Definition all_readable (w : world) : Prop :=
  forall d n,
    In (d, n) (candidates w) -> endswith n (lit ".cs") = true ->
    exists f t,
      fs w (join d n) = Some f /\ f_open f = None /\ f_text f = inr t.

(** Standard output accepts the report line of every matched file. *)
Definition lines_printable (w : world) : Prop :=
  forall p a b,
    In p (matched w) -> print_error w (report_line p a b) = None.

(** No file has a negative size. *)
Definition sizes_nonneg (w : world) : Prop :=
  forall p f, fs w p = Some f -> 0 <= st_size f.

(** The character [e] of the exponent notation. *)
Definition letter_e : char := 101%N.

(** [sample_tree] seen through other eyes: other subdirectory names, other
    text beyond the first 20 characters, and a [notes.txt] that cannot be
    opened. *)
Definition sample_tree_variant : world :=
  tree [ {| dirpath := lit "."; dirnames := [lit "src"; lit "bin"];
            filenames := [lit "notes.txt"; lit "Main.cs"] |};
         {| dirpath := lit "./src"; dirnames := [lit "obj"];
            filenames := [lit "Match.cs"; lit "Late.cs"; lit "Team.cs"] |} ]
       [ (lit "./notes.txt", locked_file 64);
         (lit "./Main.cs", text_file (lit "///Countable main") 2048);
         (lit "./src/Match.cs", text_file (lit "// ///Countable") 1536);
         (lit "./src/Late.cs",
          text_file (lit "using System; ///Cou") 4096);
         (lit "./src/Team.cs", text_file (lit "///Countable team") 512) ].

(** A tree without any matched file: a [.cs] file without the marker, and
    other files that are not even readable. *)
Definition quiet_tree : world :=
  tree [ {| dirpath := lit "."; dirnames := [];
            filenames := [lit "Plain.cs"; lit "data.bin"; lit "x.txt"] |} ]
       [ (lit "./Plain.cs", text_file (lit "using System;") 300);
         (lit "./data.bin", binary_file 5000);
         (lit "./x.txt", locked_file 12) ].

(** ** The model on concrete inputs *)

Example endswith_cs : endswith (lit "Main.cs") (lit ".cs") = true.
Proof. reflexivity. Qed.

Example endswith_too_short : endswith (lit "cs") (lit ".cs") = false.
Proof. reflexivity. Qed.

Example contains_inside :
  contains marker (take 20 (lit "// ///Countable")) = true.
Proof. reflexivity. Qed.

Example contains_cut_off :
  contains marker (take 20 (lit "using System; ///Countable")) = false.
Proof. reflexivity. Qed.

Example join_root : join (lit ".") (lit "a.cs") = lit "./a.cs".
Proof. reflexivity. Qed.

Example join_sub : join (lit "./src") (lit "Team.cs") = lit "./src/Team.cs".
Proof. reflexivity. Qed.

Example truediv_exact : truediv_1024 10240 = inr (Qmake 10240 1024).
Proof. reflexivity. Qed.

Example truediv_rounds :
  truediv_1024 (2 ^ 53 + 1) = inr (Qmake (2 ^ 53) 1024).
Proof. vm_compute. reflexivity. Qed.

Example truediv_overflows :
  truediv_1024 (2 ^ 1034 - 2 ^ 980) = inl OverflowError.
Proof. vm_compute. reflexivity. Qed.

Example format_fixed :
  List.map format_2g
    [Qmake 0 1024; Qmake 1 1024; Qmake 128 1024; Qmake 1280 1024;
     Qmake 1792 1024; Qmake 5120 1024; Qmake 10240 1024; Qmake 101887 1024]
  = [lit "0"; lit "0.00098"; lit "0.12"; lit "1.2";
     lit "1.8"; lit "5"; lit "10"; lit "99"].
Proof. vm_compute. reflexivity. Qed.

Example format_exponent :
  List.map format_2g
    [Qmake 101888 1024; Qmake 153600 1024; Qmake 1048576 1024;
     Qmake (-1536) 1024]
  = [lit "1e+02"; lit "1.5e+02"; lit "1e+03"; lit "-1.5"].
Proof. vm_compute. reflexivity. Qed.

Example run_sample_tree :
  run sample_tree
  = (inr tt,
     {| size := 4096;
        stdout :=
          [ lit "File ./Main.cs: 2 KiB, so far at: 2 KiB";
            lit "File ./src/Match.cs: 1.5 KiB, so far at: 3.5 KiB";
            lit "File ./src/Team.cs: 0.5 KiB, so far at: 4 KiB" ] |}).
Proof. vm_compute. reflexivity. Qed.

Example utf8_strict_accepts_ascii :
  utf8_strict (lit "File ./a.cs: 10 KiB, so far at: 10 KiB") = None.
Proof. reflexivity. Qed.

Example utf8_strict_refuses_surrogate :
  utf8_strict (lit "File ./" ++ odd_name) = Some UnicodeEncodeError.
Proof. reflexivity. Qed.

Example run_surrogate_tree :
  run surrogate_tree
  = (inl UnicodeEncodeError, {| size := 1024; stdout := [] |}).
Proof. vm_compute. reflexivity. Qed.

Example run_bare_tree :
  run bare_tree
  = (inr tt,
     {| size := 256;
        stdout := [ lit "File ./.cs: 0.25 KiB, so far at: 0.25 KiB" ] |}).
Proof. vm_compute. reflexivity. Qed.

(** ** Facts about strings *)

Section StrFacts.

Lemma eqb_eq (a b : str) : eqb a b = true <-> a = b.
Proof.
  revert b; induction a as [|x a IH]; intros [|y b]; simpl.
  - split; reflexivity.
  - split; discriminate.
  - split; discriminate.
  - rewrite andb_true_iff, N.eqb_eq, IH.
    split; [intros [-> ->]; reflexivity | intros [= -> ->]; auto].
Qed.

Lemma eqb_refl (a : str) : eqb a a = true.
Proof. apply eqb_eq; reflexivity. Qed.

Lemma eqb_neq (a b : str) : eqb a b = false <-> a <> b.
Proof.
  rewrite <- eqb_eq. destruct (eqb a b); split; congruence.
Qed.

Lemma startswith_iff (s pre : str) :
  startswith s pre = true <-> firstn (List.length pre) s = pre.
Proof.
  revert s; induction pre as [|x pre IH]; intros s; simpl.
  - split; reflexivity.
  - destruct s as [|y s]; simpl.
    + split; discriminate.
    + rewrite andb_true_iff, N.eqb_eq, IH.
      split; [intros [-> ->]; reflexivity | intros [= -> H]; auto].
Qed.

Lemma startswith_app (pre r : str) : startswith (pre ++ r) pre = true.
Proof.
  induction pre as [|x pre IH]; simpl; [reflexivity|].
  now rewrite N.eqb_refl, IH.
Qed.

Lemma contains_iff (sub s : str) :
  contains sub s = true <-> exists i, occurs_at sub s i.
Proof.
  unfold occurs_at. induction s as [|y s IH].
  - simpl. rewrite orb_false_r, startswith_iff. split.
    + intros H; exists 0%nat; exact H.
    + intros [i H]. now rewrite skipn_nil in H.
  - cbn [contains]. rewrite orb_true_iff, startswith_iff, IH. split.
    + intros [H | [i H]]; [exists 0%nat | exists (S i)]; exact H.
    + intros [[|i] H]; [left | right; exists i]; exact H.
Qed.

(** An occurrence inside the first [n] characters survives truncation. *)
Lemma occurs_at_take (sub s : str) (i n : nat) :
  occurs_at sub s i -> (i + List.length sub <= n)%nat ->
  occurs_at sub (take n s) i.
Proof.
  unfold occurs_at, take. intros H Hn.
  rewrite skipn_firstn_comm, firstn_firstn.
  rewrite Nat.min_l by lia. exact H.
Qed.

(** An occurrence in the truncated text is one of the text and ends within
    the first [n] characters. *)
Lemma occurs_at_take_inv (sub s : str) (i n : nat) :
  sub <> [] -> occurs_at sub (take n s) i ->
  occurs_at sub s i /\ (i + List.length sub <= n)%nat.
Proof.
  unfold occurs_at, take. intros Hne H.
  rewrite skipn_firstn_comm, firstn_firstn in H.
  assert (Hpos : (0 < List.length sub)%nat).
  { destruct sub; [congruence | simpl; lia]. }
  assert (Hlen : (List.length sub <= n - i)%nat).
  { apply (f_equal (@List.length _)) in H.
    rewrite length_firstn in H. lia. }
  rewrite Nat.min_l in H by exact Hlen.
  split; [exact H | lia].
Qed.

Lemma endswith_iff (s suf : str) :
  endswith s suf = true <-> exists pre, s = pre ++ suf.
Proof.
  unfold endswith. rewrite andb_true_iff, Nat.leb_le, eqb_eq. split.
  - intros [_ H].
    exists (firstn (List.length s - List.length suf) s).
    rewrite <- H at 2. symmetry; apply firstn_skipn.
  - intros [pre ->]. rewrite length_app. split; [lia|].
    replace (List.length pre + List.length suf - List.length suf)%nat
      with (List.length pre) by lia.
    rewrite skipn_app, skipn_all, Nat.sub_diag. reflexivity.
Qed.

(** Two suffixes of the same length are the same suffix. *)
Lemma endswith_same_length (s a b : str) :
  List.length a = List.length b ->
  endswith s a = true -> endswith s b = true -> a = b.
Proof.
  unfold endswith. rewrite !andb_true_iff, !eqb_eq.
  intros E [_ Ha] [_ Hb]. rewrite E in Ha. congruence.
Qed.

End StrFacts.

(** ** Facts about rounding *)

Section RoundFacts.

Variables (N D : Z).
Hypothesis Dpos : 0 < D.

(** The rounded quotient is within one half of the exact one. *)
Lemma round_half_even_near :
  - D <= 2 * N - 2 * round_half_even N D * D <= D.
Proof.
  unfold round_half_even.
  pose proof (Z.div_mod N D ltac:(lia)) as E.
  pose proof (Z.mod_pos_bound N D Dpos) as B.
  destruct (Z.ltb_spec D (2 * (N mod D))); cbn [orb].
  - nia.
  - destruct (Z.eqb_spec (2 * (N mod D)) D); cbn [andb]; [|nia].
    destruct (Z.odd (N / D)); nia.
Qed.

(** A tie is resolved to the even neighbour. *)
Lemma round_half_even_tie :
  2 * N = (2 * round_half_even N D - 1) * D
  \/ 2 * N = (2 * round_half_even N D + 1) * D ->
  Z.even (round_half_even N D) = true.
Proof.
  unfold round_half_even.
  pose proof (Z.div_mod N D ltac:(lia)) as E.
  pose proof (Z.mod_pos_bound N D Dpos) as B.
  destruct (Z.ltb_spec D (2 * (N mod D))); cbn [orb].
  - intros [T | T]; nia.
  - destruct (Z.eqb_spec (2 * (N mod D)) D) as [Tie | NoTie]; cbn [andb].
    + destruct (Z.odd (N / D)) eqn:O.
      * intros _. rewrite Z.even_add, <- Z.negb_odd, O. reflexivity.
      * intros _. now rewrite <- Z.negb_odd, O.
    + intros [T | T]; nia.
Qed.

End RoundFacts.

Lemma round_half_even_mono (N D N' D' : Z) :
  0 < D -> 0 < D' -> N * D' <= N' * D ->
  round_half_even N D <= round_half_even N' D'.
Proof.
  intros Dpos Dpos' Le.
  pose proof (round_half_even_near N D Dpos) as B.
  pose proof (round_half_even_near N' D' Dpos') as B'.
  pose proof (round_half_even_tie N D Dpos) as T.
  pose proof (round_half_even_tie N' D' Dpos') as T'.
  remember (round_half_even N D) as m eqn:Hm.
  remember (round_half_even N' D') as m' eqn:Hm'.
  destruct (Z.le_gt_cases m m') as [|Gt]; [assumption | exfalso].
  assert (DD : 0 < D * D') by nia.
  assert (H1 : (2 * m - 1) * (D * D') <= 2 * N * D') by nia.
  assert (H2 : 2 * N' * D <= (2 * m' + 1) * (D * D')) by nia.
  assert (H3 : (2 * m - 1) * (D * D') <= (2 * m' + 1) * (D * D')) by lia.
  apply Z.mul_le_mono_pos_r in H3; [|exact DD].
  assert (M : m = m' + 1) by lia.
  assert (E : 2 * N * D' = (2 * m' + 1) * (D * D')) by nia.
  assert (E' : 2 * N' * D = (2 * m' + 1) * (D * D')) by nia.
  assert (F : 2 * N = (2 * m - 1) * D) by nia.
  assert (F' : 2 * N' = (2 * m' + 1) * D') by nia.
  clear Hm Hm'.
  specialize (T (or_introl F)). specialize (T' (or_intror F')).
  rewrite M, Z.even_add, T' in T. discriminate T.
Qed.

Lemma round_half_even_exact (k D : Z) :
  0 < D -> round_half_even (k * D) D = k.
Proof.
  intros Dpos. unfold round_half_even.
  rewrite Z.div_mul, Z.mod_mul by lia.
  destruct (Z.ltb_spec D (2 * 0)); [lia|].
  destruct (Z.eqb_spec (2 * 0) D); [lia|]. reflexivity.
Qed.

Lemma round_half_even_lower (N D k : Z) :
  0 < D -> k * D <= N -> k <= round_half_even N D.
Proof.
  intros Dpos Le. rewrite <- (round_half_even_exact k D Dpos).
  apply round_half_even_mono; nia.
Qed.

Lemma round_half_even_upper (N D k : Z) :
  0 < D -> N <= k * D -> round_half_even N D <= k.
Proof.
  intros Dpos Le. rewrite <- (round_half_even_exact k D Dpos).
  apply round_half_even_mono; nia.
Qed.

(** ** Facts about [int / 1024] *)

Lemma round53_small (a : Z) : Z.log2 a - 52 <= 0 -> round53 a = a.
Proof.
  intros H. unfold round53. destruct (Z.leb_spec (Z.log2 a - 52) 0); [reflexivity | lia].
Qed.

(** Rounding stays within the binade. *)
Lemma round53_binade (a : Z) :
  0 < a -> 2 ^ Z.log2 a <= round53 a <= 2 ^ (Z.log2 a + 1).
Proof.
  intros Pos. destruct (Z.log2_spec a Pos) as [Lo Hi].
  change (Z.succ (Z.log2 a)) with (Z.log2 a + 1) in Hi.
  unfold round53. destruct (Z.leb_spec (Z.log2 a - 52) 0) as [Small | Big].
  - lia.
  - set (sh := Z.log2 a - 52) in *.
    assert (P : 0 < 2 ^ sh) by (apply Z.pow_pos_nonneg; lia).
    assert (E0 : 2 ^ Z.log2 a = 2 ^ 52 * 2 ^ sh).
    { rewrite <- Z.pow_add_r by lia. f_equal. unfold sh. lia. }
    assert (E1 : 2 ^ (Z.log2 a + 1) = 2 ^ 53 * 2 ^ sh).
    { rewrite <- Z.pow_add_r by lia. f_equal. unfold sh. lia. }
    rewrite E0, E1 in *. split.
    + apply Z.mul_le_mono_nonneg_r; [lia|].
      apply round_half_even_lower; [exact P | exact Lo].
    + apply Z.mul_le_mono_nonneg_r; [lia|].
      apply round_half_even_upper; [exact P | lia].
Qed.

Lemma round53_mono (a b : Z) : 0 <= a <= b -> round53 a <= round53 b.
Proof.
  intros [A AB].
  destruct (Z.eq_dec a 0) as [-> | NZ].
  - rewrite (round53_small 0) by (cbn; lia).
    destruct (Z.eq_dec b 0) as [-> | NZb].
    + rewrite round53_small by (cbn; lia). lia.
    + pose proof (round53_binade b ltac:(lia)) as [Lo _].
      pose proof (Z.pow_pos_nonneg 2 (Z.log2 b) ltac:(lia) (Z.log2_nonneg b)).
      lia.
  - pose proof (round53_binade a ltac:(lia)) as [_ Hi].
    pose proof (round53_binade b ltac:(lia)) as [Lo _].
    pose proof (Z.log2_le_mono a b AB) as L.
    destruct (Z.eq_dec (Z.log2 a) (Z.log2 b)) as [Same | Diff].
    + unfold round53. rewrite <- Same.
      destruct (Z.leb_spec (Z.log2 a - 52) 0) as [Small | Big]; [exact AB|].
      assert (P : 0 < 2 ^ (Z.log2 a - 52)) by (apply Z.pow_pos_nonneg; lia).
      apply Z.mul_le_mono_nonneg_r; [lia|].
      apply round_half_even_mono; try exact P. nia.
    + assert (2 ^ (Z.log2 a + 1) <= 2 ^ Z.log2 b).
      { apply Z.pow_le_mono_r; lia. }
      lia.
Qed.

Lemma round53_nonneg (a : Z) : 0 <= a -> 0 <= round53 a.
Proof.
  intros A. change 0 with (round53 0) at 1. apply round53_mono. lia.
Qed.

(** The quotient by 1024 grows with the dividend. *)
Lemma truediv_1024_mono (n n' : Z) (x x' : Q) :
  0 <= n <= n' ->
  truediv_1024 n = inr x -> truediv_1024 n' = inr x' -> (x <= x')%Q.
Proof.
  intros [N0 NN]. unfold truediv_1024.
  destruct (2 ^ 1034 <=? round53 (Z.abs n)); [discriminate|].
  destruct (2 ^ 1034 <=? round53 (Z.abs n')); [discriminate|].
  intros [= <-] [= <-]. unfold Qle; cbn [Qnum Qden].
  apply Z.mul_le_mono_nonneg_r; [lia|].
  rewrite !Z.abs_eq by lia.
  pose proof (round53_mono n n' ltac:(lia)).
  pose proof (round53_nonneg n N0).
  destruct (Z.eq_dec n 0) as [-> | NZ].
  - cbn [Z.sgn]. rewrite Z.mul_0_l.
    pose proof (round53_nonneg n' ltac:(lia)).
    pose proof (Z.sgn_nonneg n'). nia.
  - rewrite !Z.sgn_pos by lia. lia.
Qed.

(** It is not negative for a dividend that is not. *)
Lemma truediv_1024_nonneg (n : Z) (x : Q) :
  0 <= n -> truediv_1024 n = inr x -> (0 <= x)%Q.
Proof.
  intros N0 H. apply (Qle_trans _ (Qmake 0 1024)); [discriminate|].
  apply (truediv_1024_mono 0 n _ x); [lia | reflexivity | exact H].
Qed.

(** ** Facts about the decimal exponent *)

Lemma pow10_pos (k : Z) : 0 < 10 ^ Z.max 0 k.
Proof. apply Z.pow_pos_nonneg; lia. Qed.

Lemma ge_pow10_iff (n d k : Z) : ge_pow10 n d k = true <-> pow10_le k n d.
Proof. unfold ge_pow10, pow10_le. apply Z.leb_le. Qed.

(** [pow10_le] at a common scale [10 ^ S]. *)
Lemma pow10_le_shift (k n d S : Z) :
  0 <= S -> 0 <= S + k ->
  pow10_le k n d <-> d * 10 ^ (S + k) <= n * 10 ^ S.
Proof.
  intros HS HSk. unfold pow10_le.
  destruct (Z.le_ge_cases 0 k) as [K | K].
  - rewrite (Z.max_r 0 k), (Z.max_l 0 (- k)) by lia.
    rewrite Z.pow_add_r, Z.pow_0_r by lia.
    pose proof (Z.pow_pos_nonneg 10 S ltac:(lia) HS). nia.
  - rewrite (Z.max_l 0 k), (Z.max_r 0 (- k)) by lia.
    replace S with ((S + k) + - k) at 2 by lia.
    rewrite (Z.pow_add_r 10 (S + k) (- k)), Z.pow_0_r by lia.
    pose proof (Z.pow_pos_nonneg 10 (S + k) ltac:(lia) HSk). nia.
Qed.

Lemma pow10_le_down (k1 k2 n d : Z) :
  0 < n -> 0 < d -> k1 <= k2 -> pow10_le k2 n d -> pow10_le k1 n d.
Proof.
  intros Hn Hd K H.
  set (S := Z.abs k1 + Z.abs k2).
  apply (pow10_le_shift k2 n d S) in H; try (unfold S; lia).
  apply (pow10_le_shift k1 n d S); try (unfold S; lia).
  assert (10 ^ (S + k1) <= 10 ^ (S + k2)) by (apply Z.pow_le_mono_r; unfold S; lia).
  nia.
Qed.

Lemma pow10_le_value (k n d n' d' : Z) :
  0 < d -> 0 < d' -> n * d' <= n' * d ->
  pow10_le k n d -> pow10_le k n' d'.
Proof.
  unfold pow10_le. intros Hd Hd' Le H.
  pose proof (pow10_pos k). pose proof (pow10_pos (- k)).
  set (A := 10 ^ Z.max 0 k) in *. set (B := 10 ^ Z.max 0 (- k)) in *.
  assert (d' * A * d <= n' * B * d) by nia.
  nia.
Qed.

Lemma ndigits_aux_spec (fuel : nat) :
  forall n, 1 <= n < 10 ^ (Z.of_nat fuel + 1) ->
            10 ^ (ndigits_aux fuel n - 1) <= n < 10 ^ ndigits_aux fuel n
            /\ 1 <= ndigits_aux fuel n.
Proof.
  induction fuel as [|fuel IH]; intros n Hn.
  - cbn [ndigits_aux]. change (Z.of_nat 0 + 1) with 1 in Hn.
    cbn in *. lia.
  - cbn [ndigits_aux]. destruct (Z.ltb_spec n 10) as [Small | Big].
    + cbn. lia.
    + assert (Hq : 1 <= n / 10 < 10 ^ (Z.of_nat fuel + 1)).
      { split; [apply Z.div_le_lower_bound; lia|].
        apply Z.div_lt_upper_bound; [lia|].
        rewrite <- Z.pow_succ_r by lia.
        replace (Z.succ (Z.of_nat fuel + 1)) with (Z.of_nat (S fuel) + 1)
          by lia. lia. }
      destruct (IH _ Hq) as [[Lo Hi] One].
      set (m := ndigits_aux fuel (n / 10)) in *.
      replace (1 + m - 1) with (Z.succ (m - 1)) by lia.
      replace (1 + m) with (Z.succ m) by lia.
      rewrite !Z.pow_succ_r by lia.
      pose proof (Z.div_mod n 10 ltac:(lia)).
      pose proof (Z.mod_pos_bound n 10 ltac:(lia)).
      lia.
Qed.

Lemma ndigits_spec (n : Z) :
  1 <= n -> 10 ^ (ndigits n - 1) <= n < 10 ^ ndigits n /\ 1 <= ndigits n.
Proof.
  intros Hn. apply ndigits_aux_spec. split; [exact Hn|].
  destruct (Z.log2_spec n ltac:(lia)) as [_ Hi].
  rewrite Z2Nat.id by apply Z.log2_nonneg.
  apply Z.lt_le_trans with (1 := Hi).
  change (Z.succ (Z.log2 n)) with (Z.log2 n + 1).
  apply Z.pow_le_mono_l. lia.
Qed.

(** [exponent10 n d] is the decimal exponent of [n / d]. *)
Lemma exponent10_spec (n d : Z) :
  0 < n -> 0 < d ->
  pow10_le (exponent10 n d) n d /\ ~ pow10_le (exponent10 n d + 1) n d.
Proof.
  intros Hn Hd. unfold exponent10.
  destruct (ndigits_spec n ltac:(lia)) as [[Ln Un] On].
  destruct (ndigits_spec d ltac:(lia)) as [[Ld Ud] Od].
  set (dn := ndigits n) in *. set (dd := ndigits d) in *.
  set (S := dn + dd + 2).
  assert (Sp : 0 < 10 ^ S) by (apply Z.pow_pos_nonneg; unfold S; lia).
  assert (Far : ~ pow10_le (dn - dd + 1) n d).
  { rewrite (pow10_le_shift _ n d S) by (unfold S; lia).
    assert (E : 10 ^ (dd - 1) * 10 ^ (S + (dn - dd + 1)) = 10 ^ dn * 10 ^ S).
    { rewrite <- !Z.pow_add_r by (unfold S; lia). f_equal. lia. }
    assert (0 < 10 ^ (S + (dn - dd + 1)))
      by (apply Z.pow_pos_nonneg; unfold S; lia).
    nia. }
  assert (Near : pow10_le (dn - dd - 1) n d).
  { rewrite (pow10_le_shift _ n d S) by (unfold S; lia).
    assert (E : 10 ^ dd * 10 ^ (S + (dn - dd - 1)) = 10 ^ (dn - 1) * 10 ^ S).
    { rewrite <- !Z.pow_add_r by (unfold S; lia). f_equal. lia. }
    assert (0 < 10 ^ (S + (dn - dd - 1)))
      by (apply Z.pow_pos_nonneg; unfold S; lia).
    nia. }
  destruct (ge_pow10 n d (dn - dd)) eqn:G.
  - apply ge_pow10_iff in G. split; assumption.
  - split; [exact Near|].
    replace (dn - dd - 1 + 1) with (dn - dd) by lia.
    rewrite <- ge_pow10_iff, G. discriminate.
Qed.

(** A larger quotient has an exponent that is at least as large. *)
Lemma exponent10_mono (n d n' d' : Z) :
  0 < n -> 0 < d -> 0 < n' -> 0 < d' -> n * d' <= n' * d ->
  exponent10 n d <= exponent10 n' d'.
Proof.
  intros Hn Hd Hn' Hd' Le.
  destruct (exponent10_spec n d Hn Hd) as [Lo _].
  destruct (exponent10_spec n' d' Hn' Hd') as [_ Hi].
  destruct (Z.le_gt_cases (exponent10 n d) (exponent10 n' d')) as [|Gt];
    [assumption | exfalso].
  apply Hi. apply (pow10_le_value _ n d); try assumption.
  apply (pow10_le_down _ (exponent10 n d)); try assumption. lia.
Qed.

(** ** Facts about the two significant digits *)

Lemma pow10_le_times10 (k n d : Z) :
  pow10_le (k - 1) n (10 * d) <-> pow10_le k n d.
Proof.
  set (S := Z.abs k + 1).
  rewrite (pow10_le_shift (k - 1) n (10 * d) S) by (unfold S; lia).
  rewrite (pow10_le_shift k n d S) by (unfold S; lia).
  replace (S + k) with (Z.succ (S + (k - 1))) by lia.
  rewrite Z.pow_succ_r by (unfold S; lia). split; lia.
Qed.

(** Scaled by its exponent, a positive quotient lies in [10, 100). *)
Lemma scaled_range (n d : Z) :
  0 < n -> 0 < d ->
  let e := exponent10 n d in
  10 * (d * 10 ^ Z.max 0 (e - 1)) <= n * 10 ^ Z.max 0 (1 - e)
  /\ n * 10 ^ Z.max 0 (1 - e) < 100 * (d * 10 ^ Z.max 0 (e - 1)).
Proof.
  intros Hn Hd e.
  destruct (exponent10_spec n d Hn Hd) as [Lo Hi]. fold e in Lo, Hi.
  apply pow10_le_times10 in Lo.
  rewrite <- (pow10_le_times10 (e + 1) n d) in Hi.
  rewrite <- (pow10_le_times10 (e + 1 - 1) n (10 * d)) in Hi.
  unfold pow10_le in Lo, Hi.
  replace (e + 1 - 1 - 1) with (e - 1) in Hi by lia.
  replace (- (e - 1)) with (1 - e) in Lo, Hi by lia.
  lia.
Qed.

(** One more in the exponent is a factor of ten. *)
Lemma scale_succ (e : Z) :
  10 ^ Z.max 0 (e + 1 - 1) * 10 ^ Z.max 0 (1 - e)
  = 10 * (10 ^ Z.max 0 (e - 1) * 10 ^ Z.max 0 (1 - (e + 1))).
Proof.
  destruct (Z.le_gt_cases 1 e) as [K | K].
  - rewrite (Z.max_r 0 (e + 1 - 1)), (Z.max_l 0 (1 - e)),
      (Z.max_r 0 (e - 1)), (Z.max_l 0 (1 - (e + 1))) by lia.
    replace (e + 1 - 1) with (Z.succ (e - 1)) by lia.
    rewrite Z.pow_succ_r by lia. lia.
  - rewrite (Z.max_l 0 (e + 1 - 1)), (Z.max_r 0 (1 - e)),
      (Z.max_l 0 (e - 1)), (Z.max_r 0 (1 - (e + 1))) by lia.
    replace (1 - e) with (Z.succ (1 - (e + 1))) by lia.
    rewrite Z.pow_succ_r by lia. lia.
Qed.

(** Powers of ten in the order of their exponents, as cross products. *)
Lemma scale_mono (e e' : Z) :
  e <= e' ->
  10 ^ Z.max 0 (e - 1) * 10 ^ Z.max 0 (1 - e')
  <= 10 ^ Z.max 0 (e' - 1) * 10 ^ Z.max 0 (1 - e).
Proof.
  intros Le. rewrite <- !Z.pow_add_r by lia.
  apply Z.pow_le_mono_r; lia.
Qed.

(** The digits and exponent [to_dec2] finds for a positive float, before
    [100] is renormalised to [10]. *)
Lemma to_dec2_pos (n : Z) (d : positive) (e m : Z) :
  0 < n ->
  e = exponent10 n (Zpos d) ->
  m = round_half_even (n * 10 ^ Z.max 0 (1 - e))
                      (Zpos d * 10 ^ Z.max 0 (e - 1)) ->
  10 <= m <= 100
  /\ to_dec2 (Qmake n d)
     = if m =? 100 then {| neg := false; mant := 10; exp10 := e + 1 |}
       else {| neg := false; mant := m; exp10 := e |}.
Proof.
  intros Hn He Hm.
  destruct (scaled_range n (Zpos d) Hn ltac:(lia)) as [Lo Hi].
  rewrite <- He in Lo, Hi.
  pose proof (pow10_pos (e - 1)) as Pw.
  split.
  - subst m. split.
    + apply round_half_even_lower; nia.
    + apply round_half_even_upper; nia.
  - unfold to_dec2; cbn [Qnum Qden]. rewrite (Z.abs_eq n) by lia.
    destruct (Z.eqb_spec n 0); [lia|].
    destruct (Z.ltb_spec n 0); [lia|].
    rewrite <- He, <- Hm. reflexivity.
Qed.

Lemma to_pos_pow10 (k : Z) : Zpos (Z.to_pos (10 ^ Z.max 0 k)) = 10 ^ Z.max 0 k.
Proof. apply Z2Pos.id, pow10_pos. Qed.

(** What [to_dec2] denotes, in the terms of the unnormalised digits. *)
Lemma to_dec2_pos_value (n : Z) (d : positive) (e m : Z) :
  0 < n ->
  e = exponent10 n (Zpos d) ->
  m = round_half_even (n * 10 ^ Z.max 0 (1 - e))
                      (Zpos d * 10 ^ Z.max 0 (e - 1)) ->
  (dec2_value (to_dec2 (Qmake n d))
   == Qmake (m * 10 ^ Z.max 0 (e - 1)) (Z.to_pos (10 ^ Z.max 0 (1 - e))))%Q.
Proof.
  intros Hn He Hm. destruct (to_dec2_pos n d e m Hn He Hm) as [_ E].
  rewrite E. clear E He Hm.
  destruct (Z.eqb_spec m 100) as [-> | _]; [|reflexivity].
  unfold dec2_value, Qeq; cbn [neg mant exp10 Qnum Qden].
  rewrite !to_pos_pow10. pose proof (scale_succ e). lia.
Qed.

(** A negative float has the digits of its opposite. *)
Lemma to_dec2_opp (n : Z) (d : positive) :
  n < 0 ->
  to_dec2 (Qmake n d)
  = {| neg := true;
       mant := mant (to_dec2 (Qmake (- n) d));
       exp10 := exp10 (to_dec2 (Qmake (- n) d)) |}.
Proof.
  intros Hn. unfold to_dec2; cbn [Qnum Qden]. rewrite Z.abs_opp.
  destruct (Z.eqb_spec (Z.abs n) 0); [lia|].
  destruct (Z.ltb_spec n 0); [|lia].
  now destruct (_ =? 100).
Qed.

(** A float that is not negative has no sign and does not denote a negative
    number. *)
Lemma to_dec2_nonneg (n : Z) (d : positive) :
  0 <= n ->
  neg (to_dec2 (Qmake n d)) = false
  /\ (0 <= dec2_value (to_dec2 (Qmake n d)))%Q.
Proof.
  intros Hn. destruct (Z.eq_dec n 0) as [-> | NZ].
  - split; [reflexivity | discriminate].
  - destruct (to_dec2_pos n d _ _ ltac:(lia) eq_refl eq_refl) as [[Lo _] E].
    rewrite E. destruct (_ =? 100); (split; [reflexivity|]);
      unfold dec2_value, Qle; cbn [neg mant exp10 Qnum Qden];
      pose proof (pow10_pos (exponent10 n (Zpos d) - 1));
      pose proof (pow10_pos (exponent10 n (Zpos d) + 1 - 1)); nia.
Qed.

(** [to_dec2] rounds to two significant figures. *)
Lemma to_dec2_two_sig_figs (v : Q) : two_sig_figs v (to_dec2 v).
Proof.
  destruct v as [n d].
  assert (Pos : forall n, 0 < n -> two_sig_figs (Qmake n d) (to_dec2 (Qmake n d))).
  { clear n. intros n Hn.
    remember (exponent10 n (Zpos d)) as e eqn:He.
    remember (round_half_even (n * 10 ^ Z.max 0 (1 - e))
                              (Zpos d * 10 ^ Z.max 0 (e - 1))) as m eqn:Hm.
    destruct (to_dec2_pos n d e m Hn He Hm) as [[Lo Hi] E].
    pose proof (round_half_even_near (n * 10 ^ Z.max 0 (1 - e))
                  (Zpos d * 10 ^ Z.max 0 (e - 1))
                  ltac:(pose proof (pow10_pos (e - 1)); nia)) as Near.
    rewrite <- Hm in Near. clear He Hm.
    pose proof (pow10_pos (e - 1)) as PW. pose proof (pow10_pos (1 - e)) as PU.
    rewrite E. destruct (Z.eqb_spec m 100) as [M | M].
    - split; [cbn; lia|].
      unfold unit2, dec2_value, Qle, Qabs, Qminus, Qplus, Qopp, Qmult;
        cbn [neg mant exp10 Qnum Qden].
      rewrite !Pos2Z.inj_mul, !to_pos_pow10.
      pose proof (scale_succ e) as SS.
      pose proof (pow10_pos (e + 1 - 1)) as PW'.
      pose proof (pow10_pos (1 - (e + 1))) as PU'.
      set (W := 10 ^ Z.max 0 (e - 1)) in *.
      set (U := 10 ^ Z.max 0 (1 - e)) in *.
      set (W' := 10 ^ Z.max 0 (e + 1 - 1)) in *.
      set (U' := 10 ^ Z.max 0 (1 - (e + 1))) in *.
      rewrite M in Near.
      assert (A : Z.abs (n * U' - 10 * W' * Zpos d) * U * 2 <= W' * Zpos d * U).
      { assert (Z.abs (2 * (n * U) - 2 * 100 * (Zpos d * W)) * U'
                <= Zpos d * W * U') by nia.
        assert (E1 : (n * U' - 10 * W' * Zpos d) * U
                     = n * U * U' - 100 * (Zpos d * W) * U') by nia.
        rewrite <- (Z.abs_eq U) by lia. rewrite <- Z.abs_mul, E1.
        rewrite (Z.abs_eq U) by lia. nia. }
      apply (Z.mul_le_mono_pos_r _ _ U); [lia|].
      replace (n * U' + - (10 * W') * Zpos d) with (n * U' - 10 * W' * Zpos d)
        by lia.
      nia.
    - split; [cbn; lia|].
      unfold unit2, dec2_value, Qle, Qabs, Qminus, Qplus, Qopp, Qmult;
        cbn [neg mant exp10 Qnum Qden].
      rewrite !Pos2Z.inj_mul, !to_pos_pow10.
      set (W := 10 ^ Z.max 0 (e - 1)) in *.
      set (U := 10 ^ Z.max 0 (1 - e)) in *.
      replace (n * U + - (m * W) * Zpos d) with (n * U - m * (Zpos d * W))
        by lia.
      nia. }
  destruct (Z.lt_trichotomy n 0) as [Neg | [-> | Hn]].
  - destruct (Pos (- n) ltac:(lia)) as [Digits Near].
    rewrite (to_dec2_opp n d Neg).
    destruct (to_dec2_nonneg (- n) d ltac:(lia)) as [NN _].
    set (x := to_dec2 (Qmake (- n) d)) in *.
    split; [exact Digits|].
    unfold unit2 in *; cbn [exp10] in *.
    assert (E : (Qabs (Qmake n d
                       - dec2_value {| neg := true; mant := mant x;
                                       exp10 := exp10 x |})
                 == Qabs (Qmake (- n) d - dec2_value x))%Q).
    { rewrite <- Qabs_opp. apply Qabs_wd.
      unfold dec2_value; cbn [neg mant exp10]. rewrite NN.
      unfold Qeq, Qminus, Qplus, Qopp; cbn [Qnum Qden]. ring. }
    rewrite E. exact Near.
  - split; [left; reflexivity|]. cbn. discriminate.
  - exact (Pos n Hn).
Qed.

(** A power of ten one exponent up is at least ten times as large. *)
Lemma scale_step (e e' : Z) :
  e < e' ->
  10 * (10 ^ Z.max 0 (e - 1) * 10 ^ Z.max 0 (1 - e'))
  <= 10 ^ Z.max 0 (e' - 1) * 10 ^ Z.max 0 (1 - e).
Proof.
  intros Lt.
  pose proof (scale_mono (e + 1) e' ltac:(lia)) as Mo.
  pose proof (scale_succ e) as Su.
  pose proof (pow10_pos (1 - (e + 1))) as P.
  set (W := 10 ^ Z.max 0 (e - 1)) in *.
  set (U := 10 ^ Z.max 0 (1 - e)) in *.
  set (W' := 10 ^ Z.max 0 (e' - 1)) in *.
  set (U' := 10 ^ Z.max 0 (1 - e')) in *.
  set (W1 := 10 ^ Z.max 0 (e + 1 - 1)) in *.
  set (U1 := 10 ^ Z.max 0 (1 - (e + 1))) in *.
  assert (H : 10 * (W * U') * U1 <= W' * U * U1) by nia.
  nia.
Qed.

(** Rounding to two significant figures keeps the order of floats that are
    not negative. *)
Lemma to_dec2_mono (x y : Q) :
  (0 <= x)%Q -> (x <= y)%Q ->
  (dec2_value (to_dec2 x) <= dec2_value (to_dec2 y))%Q.
Proof.
  destruct x as [n d], y as [n' d']. unfold Qle at 1 2; cbn [Qnum Qden].
  rewrite Z.mul_1_r. intros Hn Le.
  destruct (Z.eq_dec n 0) as [-> | NZ].
  - assert (Hn' : 0 <= n') by nia.
    apply (Qle_trans _ 0); [discriminate|].
    apply to_dec2_nonneg; exact Hn'.
  - assert (Pn : 0 < n) by lia. assert (Pn' : 0 < n') by nia.
    rewrite (to_dec2_pos_value n d _ _ Pn eq_refl eq_refl).
    rewrite (to_dec2_pos_value n' d' _ _ Pn' eq_refl eq_refl).
    pose proof (exponent10_mono n (Zpos d) n' (Zpos d') Pn ltac:(lia) Pn'
                  ltac:(lia) Le) as Ee.
    destruct (to_dec2_pos n d _ _ Pn eq_refl eq_refl) as [[_ Hi] _].
    destruct (to_dec2_pos n' d' _ _ Pn' eq_refl eq_refl) as [[Lo' _] _].
    set (e := exponent10 n (Zpos d)) in *.
    set (e' := exponent10 n' (Zpos d')) in *.
    unfold Qle; cbn [Qnum Qden]. rewrite !to_pos_pow10.
    pose proof (pow10_pos (e - 1)) as PW. pose proof (pow10_pos (1 - e)) as PU.
    pose proof (pow10_pos (e' - 1)) as PW'.
    pose proof (pow10_pos (1 - e')) as PU'.
    destruct (Z.eq_dec e e') as [Same | Diff].
    + rewrite <- Same in *.
      apply Z.mul_le_mono_nonneg_r; [lia|].
      apply Z.mul_le_mono_nonneg_r; [lia|].
      apply round_half_even_mono; nia.
    + pose proof (scale_step e e' ltac:(lia)) as St.
      set (W := 10 ^ Z.max 0 (e - 1)) in *.
      set (U := 10 ^ Z.max 0 (1 - e)) in *.
      set (W' := 10 ^ Z.max 0 (e' - 1)) in *.
      set (U' := 10 ^ Z.max 0 (1 - e')) in *.
      set (m := round_half_even (n * U) (Zpos d * W)) in *.
      set (m' := round_half_even (n' * U') (Zpos d' * W')) in *.
      assert (m * (W * U') <= 100 * (W * U')) by nia.
      assert (10 * (W' * U) <= m' * (W' * U)) by nia.
      nia.
Qed.

(** ** Facts about the monad and the loops *)

Section Loops.

Context {A : Type}.

Lemma for_app (l1 l2 : list A) (body : A -> M unit) (s : state) :
  for_ (l1 ++ l2) body s
  = match for_ l1 body s with
    | (inl e, s') => (inl e, s')
    | (inr _, s') => for_ l2 body s'
    end.
Proof.
  revert s; induction l1 as [|x l1 IH]; intros s; simpl; [reflexivity|].
  unfold bind. destruct (body x s) as [[e | []] s1]; [reflexivity|].
  apply IH.
Qed.

Lemma for_map {B} (g : B -> A) (l : list B) (body : A -> M unit)
      (s : state) :
  for_ (List.map g l) body s = for_ l (fun x => body (g x)) s.
Proof.
  revert s; induction l as [|x l IH]; intros s; simpl; [reflexivity|].
  unfold bind. destruct (body (g x) s) as [[e | []] s1]; [reflexivity|].
  apply IH.
Qed.

End Loops.

Lemma main_flat (w : world) (s : state) :
  main w s = visit_all w (candidates w) s.
Proof.
  unfold main, visit_all, candidates.
  revert s; induction (os_walk w) as [|e es IH]; intros s; [reflexivity|].
  cbn [flat_map for_]. rewrite for_app, for_map. unfold bind at 1. cbn [fst snd].
  destruct (for_ (filenames e) _ s) as [[x | []] s1]; [reflexivity|].
  apply IH.
Qed.

(** ** One iteration of the inner loop *)


Section Run.

Variable w : world.

(** An iteration does one of three things: nothing, raise on an unreadable
    [.cs] file without touching the state, or count the file and then report
    it, which fails when a division overflows or standard output refuses the
    line. *)
Lemma visit_cases (d n : str) (s : state) :
  (countable w (d, n) = false /\ visit w d n s = (inr tt, s))
  \/ (countable w (d, n) = false /\ has_extension n = true
      /\ exists e, unreadable w (join d n) e /\ visit w d n s = (inl e, s))
  \/ (countable w (d, n) = true
      /\ visit w d n s
         = match line_of (counted w (size s) (join d n)) with
           | inr l =>
               match print_error w l with
               | None => (inr tt,
                          {| size := size s + size_of w (join d n);
                             stdout := stdout s ++ [l] |})
               | Some e => (inl e,
                            {| size := size s + size_of w (join d n);
                               stdout := stdout s |})
               end
           | inl x => (inl x,
                       {| size := size s + size_of w (join d n);
                          stdout := stdout s |})
           end).
Proof.
  unfold countable, has_extension, has_marker, path_of, unreadable, visit,
    open_r, read, os_stat, line_of, counted, size_of; cbn [fst snd].
  destruct s as [acc out].
  destruct (endswith n (lit ".cs")) eqn:Ext; [|left; auto].
  destruct (fs w (join d n)) as [f|] eqn:F.
  2:{ right; left. repeat split. exists FileNotFoundError. auto. }
  destruct f as [[e|] [e'|t] sz];
    cbv beta iota zeta delta
      [bind ret raise when lift get_size set_size print andb
       f_open f_text st_size e_path e_size e_total size stdout];
    rewrite ?F.
  - right; left. repeat split. exists e. auto.
  - right; left. repeat split. exists e. auto.
  - right; left. repeat split. exists e'. auto.
  - destruct (contains marker (take 20 t)) eqn:C; [|left; auto].
    right; right. split; [reflexivity|].
    destruct (truediv_1024 sz) as [x|a]; [reflexivity|].
    destruct (truediv_1024 (acc + sz)) as [x|b]; [reflexivity|].
    cbv beta iota zeta delta [size stdout].
    destruct (print_error w _); reflexivity.
Qed.

Lemma sum_sizes_cons (p : str) (ps : list str) :
  sum_sizes w (p :: ps) = size_of w p + sum_sizes w ps.
Proof. reflexivity. Qed.

(** The loop invariant.  Whatever the outcome, the lines printed are the
    texts of the first entries of the ledger of the files at hand; when
    the loop runs to its end, they are all of them and the accumulator has
    grown by the sum of the matched sizes. *)
Lemma visit_all_sim (cs : list (str * str)) :
  forall (s s' : state) (r : exn + unit),
    visit_all w cs s = (r, s') ->
    exists lines,
      stdout s' = stdout s ++ lines
      /\ Forall2 prints
           (firstn (List.length lines)
                   (ledger_from w (size s)
                      (List.map path_of (filter (countable w) cs))))
           lines
      /\ (List.length lines <= List.length (filter (countable w) cs))%nat
      /\ (r = inr tt ->
          List.length lines = List.length (filter (countable w) cs)
          /\ size s'
             = size s
               + sum_sizes w (List.map path_of (filter (countable w) cs)))
      /\ (size s'
          = size s
            + sum_sizes w
                (firstn (List.length lines)
                        (List.map path_of (filter (countable w) cs)))
          \/ ((exists e, r = inl e)
              /\ (List.length lines
                  < List.length (filter (countable w) cs))%nat
              /\ size s'
                 = size s
                   + sum_sizes w
                       (firstn (S (List.length lines))
                               (List.map path_of
                                         (filter (countable w) cs))))).
Proof.
  induction cs as [|[d n] cs IH]; intros s s' r Run.
  - injection Run as <- <-. exists []. cbn.
    rewrite app_nil_r. repeat split; auto with zarith.
  - unfold visit_all in Run. cbn [for_ fst snd] in Run.
    unfold bind in Run. fold (visit_all w cs) in Run.
    cbn [filter].
    assert (Stop : forall e,
               (r, s') = (inl e, {| size := size s + size_of w (join d n);
                                    stdout := stdout s |}) ->
               exists lines,
                 stdout s' = stdout s ++ lines
                 /\ Forall2 prints
                      (firstn (List.length lines)
                         (ledger_from w (size s)
                            (List.map path_of ((d, n) :: filter (countable w) cs))))
                      lines
                 /\ (List.length lines
                     <= List.length ((d, n) :: filter (countable w) cs))%nat
                 /\ (r = inr tt ->
                     List.length lines
                     = List.length ((d, n) :: filter (countable w) cs)
                     /\ size s'
                        = size s
                          + sum_sizes w
                              (List.map path_of
                                 ((d, n) :: filter (countable w) cs)))
                 /\ (size s'
                     = size s
                       + sum_sizes w
                           (firstn (List.length lines)
                              (List.map path_of
                                 ((d, n) :: filter (countable w) cs)))
                     \/ ((exists e, r = inl e)
                         /\ (List.length lines
                             < List.length
                                 ((d, n) :: filter (countable w) cs))%nat
                         /\ size s'
                            = size s
                              + sum_sizes w
                                  (firstn (S (List.length lines))
                                     (List.map path_of
                                        ((d, n)
                                         :: filter (countable w) cs)))))).
    { intros e [= -> ->]. exists []. cbn [List.length firstn List.map].
      rewrite app_nil_r.
      split; [reflexivity|]. split; [constructor|]. split; [cbn; lia|].
      split; [discriminate|]. right.
      split; [eauto|]. split; [cbn; lia|].
      cbn [size]. rewrite sum_sizes_cons.
      change (sum_sizes w []) with 0. unfold path_of; cbn [fst snd]. lia. }
    destruct (visit_cases d n s)
      as [[NC V] | [[NC [_ [e [_ V]]]] | [C V]]];
      rewrite V in Run; clear V.
    + rewrite NC. exact (IH _ _ _ Run).
    + injection Run as <- <-. exists []. cbn.
      rewrite app_nil_r.
      repeat split; auto with arith zarith; discriminate.
    + rewrite C.
      destruct (line_of (counted w (size s) (join d n))) as [x|l] eqn:L.
      { apply (Stop x). now symmetry. }
      destruct (print_error w l) as [e|] eqn:Pr.
      { apply (Stop e). now symmetry. }
      clear Stop. cbn [List.map ledger_from path_of fst snd List.length].
      destruct (IH _ _ _ Run) as (lines & Out & Txt & Len & Fin & Acc).
      cbn [size stdout] in Out, Txt, Fin, Acc.
      exists (l :: lines). cbn [List.length]. rewrite !firstn_cons.
      split; [rewrite Out, <- app_assoc; reflexivity|].
      split; [constructor; [exact L | exact Txt]|].
      split; [lia|]. split.
      * intros H. destruct (Fin H) as [E1 E2].
        split; [lia|]. rewrite E2, sum_sizes_cons.
        unfold path_of; cbn [fst snd]. lia.
      * rewrite !sum_sizes_cons. change (path_of (d, n)) with (join d n).
        destruct Acc as [A | (E & Lt & A)]; [left | right].
        -- rewrite A. lia.
        -- split; [exact E|]. split; [lia|]. rewrite A. lia.
Qed.

(** The ledger built with an accumulator is the ledger of prefix sums. *)
Lemma ledger_from_nth (ps : list str) :
  forall (acc : Z) (k : nat),
    (k < List.length ps)%nat ->
    nth_error (ledger_from w acc ps) k
    = Some {| e_path := nth k ps [];
              e_size := size_of w (nth k ps []);
              e_total := acc + sum_sizes w (firstn (S k) ps) |}.
Proof.
  induction ps as [|p ps IH]; intros acc k Hk; [cbn in Hk; lia|].
  destruct k as [|k].
  - cbn. unfold counted. do 3 f_equal. lia.
  - cbn [ledger_from nth_error nth]. rewrite IH by (cbn in Hk; lia).
    rewrite (firstn_cons (S k)), sum_sizes_cons.
    do 2 f_equal. lia.
Qed.

Lemma ledger_from_length (ps : list str) (acc : Z) :
  List.length (ledger_from w acc ps) = List.length ps.
Proof.
  revert acc; induction ps as [|p ps IH]; intros acc; cbn; auto.
Qed.

Lemma ledger_nth (k : nat) :
  (k < List.length (matched w))%nat ->
  nth_error (ledger w) k = Some (entry_at w k).
Proof.
  intros Hk. unfold ledger.
  rewrite nth_error_map, nth_error_seq.
  apply Nat.ltb_lt in Hk. rewrite Hk. reflexivity.
Qed.

Lemma ledger_is_ledger_from : ledger w = ledger_from w 0 (matched w).
Proof.
  apply nth_error_ext. intros k.
  destruct (Nat.lt_ge_cases k (List.length (matched w))) as [L | L].
  - rewrite ledger_nth, ledger_from_nth by exact L. reflexivity.
  - transitivity (@None entry); [|symmetry]; apply nth_error_None.
    + unfold ledger. now rewrite length_map, length_seq.
    + now rewrite ledger_from_length.
Qed.

(** A whole run, in the words of the ledger.  The accumulator is the sum
    of the sizes of the files whose lines were printed, or of these and the
    next matched file when reporting that file raised. *)
Lemma run_sim (r : exn + unit) (s : state) :
  run w = (r, s) ->
  Forall2 prints (firstn (List.length (stdout s)) (ledger w)) (stdout s)
  /\ (List.length (stdout s) <= List.length (matched w))%nat
  /\ (r = inr tt ->
      List.length (stdout s) = List.length (matched w)
      /\ size s = sum_sizes w (matched w))
  /\ (size s = sum_sizes w (firstn (List.length (stdout s)) (matched w))
      \/ ((exists e, r = inl e)
          /\ (List.length (stdout s) < List.length (matched w))%nat
          /\ size s
             = sum_sizes w
                 (firstn (S (List.length (stdout s))) (matched w)))).
Proof.
  unfold run. rewrite main_flat. intros Run.
  destruct (visit_all_sim _ _ _ _ Run)
    as (lines & Out & Txt & Len & Fin & Acc).
  cbn in Out. subst lines. fold (matched w) in Txt, Fin, Acc.
  rewrite ledger_is_ledger_from.
  change (size initial) with 0 in Txt, Fin, Acc.
  assert (LM : List.length (matched w)
               = List.length (filter (countable w) (candidates w)))
    by (unfold matched; apply length_map).
  rewrite LM.
  split; [exact Txt|]. split; [exact Len|]. split.
  - intros H. destruct (Fin H) as [E1 E2]. split; [exact E1 | exact E2].
  - destruct Acc as [A | (E & Lt & A)]; [left | right]; auto.
Qed.

End Run.

(** ** The properties of the specification *)

Lemma Forall2_at {A B} (P : A -> B -> Prop) (xs : list A) (ys : list B) :
  Forall2 P xs ys ->
  forall k x y, nth_error xs k = Some x -> nth_error ys k = Some y -> P x y.
Proof.
  induction 1 as [|x0 y0 xs ys H0 _ IH]; intros [|k] x y; cbn;
    try discriminate.
  - intros [= ->] [= ->]. exact H0.
  - apply IH.
Qed.

Lemma prints_entry_at (w : world) (k : nat) (l : str) :
  prints (entry_at w k) l ->
  exists a b,
    truediv_1024 (size_of w (nth k (matched w) [])) = inr a
    /\ truediv_1024 (sum_sizes w (firstn (S k) (matched w))) = inr b
    /\ l = report_line (nth k (matched w) []) a b.
Proof.
  unfold prints, line_of, entry_at; cbn [e_path e_size e_total].
  destruct (truediv_1024 (size_of w _)) as [x|a]; [discriminate|].
  destruct (truediv_1024 (sum_sizes w _)) as [x|b]; [discriminate|].
  intros [= <-]. exists a, b. auto.
Qed.

(** The k-th printed line is the text of the k-th entry of the ledger. *)
Lemma stdout_nth (w : world) (k : nat) (l : str) :
  nth_error (stdout (snd (run w))) k = Some l ->
  (k < List.length (matched w))%nat /\ prints (entry_at w k) l.
Proof.
  destruct (run w) as [r s] eqn:Run. cbn [snd]. intros Hk.
  destruct (run_sim w r s Run) as (Txt & Len & _ & _).
  assert (Lt : (k < List.length (stdout s))%nat).
  { apply nth_error_Some. congruence. }
  split; [lia|].
  assert (E : nth_error (firstn (List.length (stdout s)) (ledger w)) k
              = Some (entry_at w k)).
  { rewrite nth_error_firstn.
    destruct (Nat.ltb_spec k (List.length (stdout s))); [|lia].
    apply ledger_nth. lia. }
  exact (Forall2_at _ _ _ Txt _ _ _ E Hk).
Qed.

(** C1, as amended.  On a run that ends without an exception, the final
    value of the accumulator is the sum of the [st_size] of exactly the files
    whose name ends with [.cs] and whose first 20 characters, read as text,
    contain [///Countable]. *)
Theorem total_is_sum_of_matched (w : world) (s : state) :
  run w = (inr tt, s) -> size s = sum_sizes w (matched w).
Proof.
  intros Run. destruct (run_sim w _ _ Run) as (_ & _ & Fin & _).
  now destruct (Fin eq_refl).
Qed.

Lemma total_is_sum_of_matched_witness :
  run sample_tree = (inr tt, snd (run sample_tree))
  /\ size (snd (run sample_tree))
     = sum_sizes sample_tree (matched sample_tree).
Proof.
  split; [vm_compute; reflexivity|].
  apply (total_is_sum_of_matched sample_tree). vm_compute; reflexivity.
Defined.

(** C1 as stated fails when a [.cs] file cannot be read: the run stops at
    [bad.cs] with the accumulator at 0, although [good.cs] passes both
    filters and has 100 bytes. *)
Lemma total_misses_files_after_failure :
  run broken_tree = (inl UnicodeDecodeError, initial)
  /\ matched broken_tree = [lit "./good.cs"]
  /\ sum_sizes broken_tree (matched broken_tree) = 100
  /\ size (snd (run broken_tree))
     <> sum_sizes broken_tree (matched broken_tree).
Proof.
  repeat split; try (vm_compute; reflexivity).
  vm_compute. discriminate.
Qed.

(** *** The two filters, file by file *)

Lemma has_marker_text (w : world) (p : str) (f : file) (t : str) :
  fs w p = Some f -> f_open f = None -> f_text f = inr t ->
  has_marker w p = contains marker (take 20 t).
Proof.
  unfold has_marker. intros -> O T. destruct f as [o x z]; cbn in *.
  now subst.
Qed.

Lemma size_of_file (w : world) (p : str) (f : file) :
  fs w p = Some f -> size_of w p = st_size f.
Proof. unfold size_of. now intros ->. Qed.

(** A countable file adds its size to the accumulator. *)
Lemma visit_counts (w : world) (d n : str) (s : state) :
  countable w (d, n) = true ->
  size (snd (visit w d n s)) = size s + size_of w (join d n).
Proof.
  intros C.
  destruct (visit_cases w d n s) as [[NC _] | [[NC _] | [_ V]]];
    try congruence.
  rewrite V. destruct (line_of _) as [x|l]; [reflexivity|].
  now destruct (print_error w l).
Qed.

(** A readable file that is not countable leaves the state as it was. *)
Lemma visit_skips (w : world) (d n : str) (s : state) (f : file) (t : str) :
  fs w (join d n) = Some f -> f_open f = None -> f_text f = inr t ->
  countable w (d, n) = false ->
  visit w d n s = (inr tt, s).
Proof.
  intros F O T NC.
  destruct (visit_cases w d n s)
    as [[_ V] | [[_ [_ [e [U _]]]] | [C _]]]; try congruence.
  unfold unreadable in U. rewrite F in U.
  destruct U as [U | [_ U]]; congruence.
Qed.

(** C2.  A [.cs] file whose first 20 characters contain [///Countable] is
    counted: its size is added to the accumulator.  A [.cs] file in which no
    occurrence of the marker lies entirely within the first 20 characters is
    not counted: the iteration leaves accumulator and output as they were. *)
Theorem marker_must_lie_in_first_20 (w : world) (d n : str) (f : file)
        (t : str) (s : state) :
  endswith n (lit ".cs") = true ->
  fs w (join d n) = Some f -> f_open f = None -> f_text f = inr t ->
  ((exists i, occurs_at marker (take 20 t) i) ->
   countable w (d, n) = true
   /\ size (snd (visit w d n s)) = size s + st_size f)
  /\ ((forall i, occurs_at marker t i ->
                 (20 < i + List.length marker)%nat) ->
      countable w (d, n) = false
      /\ visit w d n s = (inr tt, s)).
Proof.
  intros Ext F O T.
  assert (C : countable w (d, n) = contains marker (take 20 t)).
  { unfold countable, has_extension, path_of; cbn [fst snd].
    now rewrite Ext, (has_marker_text w _ f t F O T). }
  split.
  - intros Occ. apply contains_iff in Occ. rewrite Occ in C.
    split; [exact C|].
    rewrite (visit_counts w d n s C). now rewrite (size_of_file w _ f F).
  - intros Far.
    assert (NC : countable w (d, n) = false).
    { rewrite C. destruct (contains marker (take 20 t)) eqn:Occ; auto.
      apply contains_iff in Occ. destruct Occ as [i Occ].
      apply occurs_at_take_inv in Occ; [|discriminate].
      destruct Occ as [Occ Le]. specialize (Far i Occ). lia. }
    split; [exact NC|]. exact (visit_skips w d n s f t F O T NC).
Qed.

Lemma marker_must_lie_in_first_20_witness :
  (countable sample_tree (lit "./src", lit "Match.cs") = true
   /\ size (snd (visit sample_tree (lit "./src") (lit "Match.cs") initial))
      = 0 + 1536)
  /\ (countable sample_tree (lit "./src", lit "Late.cs") = false
      /\ visit sample_tree (lit "./src") (lit "Late.cs") initial
         = (inr tt, initial)).
Proof.
  split.
  - refine (proj1 (marker_must_lie_in_first_20 sample_tree
                     (lit "./src") (lit "Match.cs")
                     (text_file (lit "// ///Countable") 1536)
                     (lit "// ///Countable") initial
                     eq_refl eq_refl eq_refl eq_refl) _).
    exists 3%nat. reflexivity.
  - refine (proj2 (marker_must_lie_in_first_20 sample_tree
                     (lit "./src") (lit "Late.cs")
                     (text_file (lit "using System; ///Countable") 4096)
                     (lit "using System; ///Countable") initial
                     eq_refl eq_refl eq_refl eq_refl) _).
    intros i Occ. change (List.length marker) with 12%nat.
    do 9 (destruct i as [|i]; [vm_compute in Occ; discriminate Occ|]).
    lia.
Defined.

(** C3.  A file whose name does not end with [.cs] is never counted: it does
    not pass the filters, whatever its content, and the iteration on it
    changes neither the accumulator nor the output and raises nothing. *)
Theorem other_extension_never_counted (w : world) (d n : str) (s : state) :
  endswith n (lit ".cs") = false ->
  countable w (d, n) = false /\ visit w d n s = (inr tt, s).
Proof.
  intros Ext. split.
  - unfold countable, has_extension; cbn [snd]. now rewrite Ext.
  - unfold visit, when. now rewrite Ext.
Qed.

Lemma other_extension_never_counted_witness :
  contains marker (lit "///Countable") = true
  /\ countable sample_tree (lit ".", lit "notes.txt") = false
  /\ visit sample_tree (lit ".") (lit "notes.txt") initial
     = (inr tt, initial).
Proof.
  split; [reflexivity|].
  apply (other_extension_never_counted sample_tree). reflexivity.
Defined.

(** C8.  The extension filter is case-sensitive: a name ending with [.CS],
    [.Cs] or [.cS] does not end with [.cs], so the file is never counted,
    whatever its content, and is not even opened. *)
Theorem extension_is_case_sensitive (w : world) (d n : str) (s : state) :
  endswith n (lit ".CS") = true
  \/ endswith n (lit ".Cs") = true
  \/ endswith n (lit ".cS") = true ->
  endswith n (lit ".cs") = false
  /\ countable w (d, n) = false
  /\ visit w d n s = (inr tt, s).
Proof.
  intros Up.
  assert (Ext : endswith n (lit ".cs") = false).
  { destruct (endswith n (lit ".cs")) eqn:Low; [exfalso | reflexivity].
    destruct Up as [U | [U | U]];
      pose proof (fun H => endswith_same_length n _ _ H U Low) as E;
      specialize (E eq_refl); discriminate E. }
  split; [exact Ext|].
  unfold countable, has_extension, visit, when; cbn [snd].
  now rewrite Ext.
Qed.

Lemma extension_is_case_sensitive_witness :
  endswith (lit "Main.CS") (lit ".cs") = false
  /\ countable sample_tree (lit ".", lit "Main.CS") = false
  /\ visit sample_tree (lit ".") (lit "Main.CS") initial = (inr tt, initial).
Proof.
  apply (extension_is_case_sensitive sample_tree). left. reflexivity.
Defined.

(** C9.  The bare name [.cs] passes the extension filter, and such a file is
    counted whenever its first 20 characters contain [///Countable]. *)
Theorem bare_extension_is_counted (w : world) (d : str) (f : file) (t : str)
        (s : state) :
  endswith (lit ".cs") (lit ".cs") = true
  /\ (fs w (join d (lit ".cs")) = Some f ->
      f_open f = None -> f_text f = inr t ->
      (exists i, occurs_at marker (take 20 t) i) ->
      countable w (d, lit ".cs") = true
      /\ size (snd (visit w d (lit ".cs") s)) = size s + st_size f).
Proof.
  split; [reflexivity|]. intros F O T Occ.
  assert (C : countable w (d, lit ".cs") = true).
  { unfold countable, has_extension, path_of; cbn [fst snd].
    rewrite (has_marker_text w _ f t F O T).
    apply contains_iff in Occ. now rewrite Occ. }
  split; [exact C|].
  rewrite (visit_counts w d _ s C). now rewrite (size_of_file w _ f F).
Qed.

Lemma bare_extension_is_counted_witness :
  countable bare_tree (lit ".", lit ".cs") = true
  /\ size (snd (visit bare_tree (lit ".") (lit ".cs") initial)) = 0 + 256.
Proof.
  refine (proj2 (bare_extension_is_counted bare_tree (lit ".")
                   (text_file (lit "///Countable bare") 256)
                   (lit "///Countable bare") initial)
                eq_refl eq_refl eq_refl _).
  exists 0%nat. reflexivity.
Defined.

(** *** Failures *)

(** An unreadable [.cs] file makes the iteration raise with the state as it
    was. *)
Lemma visit_raises (w : world) (d n : str) (e : exn) (s : state) :
  endswith n (lit ".cs") = true ->
  unreadable w (join d n) e ->
  visit w d n s = (inl e, s).
Proof.
  intros Ext U. unfold visit, when, open_r, read. rewrite Ext.
  unfold unreadable in U. unfold bind at 1.
  destruct (fs w (join d n)) as [f|]; [|now subst].
  destruct U as [U | [U1 U2]].
  - now rewrite U.
  - rewrite U1. unfold ret, bind. now rewrite U2.
Qed.

(** C4.  When opening, reading or decoding a [.cs] file raises, nothing
    catches the exception: the run ends with that exception, in the state the
    files before it had produced.  The files after it play no part, so none
    of them is examined or counted, and the lines printed before the failure
    are the whole output. *)
Theorem failure_stops_the_run (w : world) (pre post : list (str * str))
        (d n : str) (e : exn) (s : state) :
  candidates w = pre ++ (d, n) :: post ->
  visit_all w pre initial = (inr tt, s) ->
  endswith n (lit ".cs") = true ->
  unreadable w (join d n) e ->
  run w = (inl e, s).
Proof.
  intros Cs Pre Ext U. unfold run. rewrite main_flat, Cs.
  unfold visit_all in *. rewrite for_app, Pre.
  cbn [for_ fst snd]. unfold bind.
  now rewrite (visit_raises w d n e s Ext U).
Qed.

Lemma failure_stops_the_run_witness :
  run locked_tree
  = (inl PermissionError,
     {| size := 3072;
        stdout := [lit "File ./first.cs: 3 KiB, so far at: 3 KiB"] |}).
Proof.
  apply (failure_stops_the_run locked_tree
           [(lit ".", lit "first.cs")] [(lit ".", lit "last.cs")]
           (lit ".") (lit "secret.cs")).
  - reflexivity.
  - vm_compute. reflexivity.
  - reflexivity.
  - left. reflexivity.
Defined.

(** *** The report *)

Lemma sum_sizes_firstn_S (w : world) (ps : list str) (k : nat) :
  (k < List.length ps)%nat ->
  sum_sizes w (firstn (S k) ps)
  = sum_sizes w (firstn k ps) + size_of w (nth k ps []).
Proof.
  revert k; induction ps as [|p ps IH]; intros k Hk; [cbn in Hk; lia|].
  destruct k as [|k].
  - cbn. lia.
  - rewrite (firstn_cons (S k)), (firstn_cons k), !sum_sizes_cons.
    rewrite IH by (cbn in Hk; lia). cbn [nth]. lia.
Qed.

Lemma size_of_nonneg (w : world) (p : str) :
  (forall q f, fs w q = Some f -> 0 <= st_size f) -> 0 <= size_of w p.
Proof.
  intros Pos. unfold size_of.
  destruct (fs w p) as [f|] eqn:F; [exact (Pos p f F) | lia].
Qed.

(** C5, as amended.  On a run that ends without an exception, standard
    output holds exactly one line per matched file, in traversal order and
    nothing else; the line of the k-th matched file is
    [File <path>: <size> KiB, so far at: <total> KiB], where the two numbers
    are the file's bytes and the running total's bytes divided by 1024 and
    written with the [.2g] format, [format_2g v = render (to_dec2 v)], which
    keeps two significant figures of each. *)
Theorem one_line_per_matched_file (w : world) (s : state) :
  run w = (inr tt, s) ->
  List.length (stdout s) = List.length (matched w)
  /\ forall k p,
      nth_error (matched w) k = Some p ->
      exists a b,
        truediv_1024 (size_of w p) = inr a
        /\ truediv_1024 (sum_sizes w (firstn (S k) (matched w))) = inr b
        /\ nth_error (stdout s) k
           = Some (lit "File " ++ p ++ lit ": " ++ format_2g a
                   ++ lit " KiB, so far at: " ++ format_2g b ++ lit " KiB")
        /\ two_sig_figs a (to_dec2 a)
        /\ two_sig_figs b (to_dec2 b).
Proof.
  intros Run. destruct (run_sim w _ _ Run) as (_ & _ & Fin & _).
  destruct (Fin eq_refl) as [Len _]. split; [exact Len|].
  intros k p Hp.
  assert (Lt : (k < List.length (stdout s))%nat).
  { rewrite Len. apply nth_error_Some. congruence. }
  destruct (nth_error (stdout s) k) as [l|] eqn:Hl;
    [|apply nth_error_None in Hl; lia].
  assert (Hl' : nth_error (stdout (snd (run w))) k = Some l)
    by now rewrite Run.
  destruct (stdout_nth w k l Hl') as [_ P].
  destruct (prints_entry_at w k l P) as (a & b & Ha & Hb & E).
  rewrite (@nth_error_nth str _ _ _ [] Hp) in Ha, E.
  exists a, b. subst l. auto using to_dec2_two_sig_figs.
Qed.

Lemma one_line_per_matched_file_witness :
  List.length (stdout (snd (run sample_tree)))
  = List.length (matched sample_tree)
  /\ forall k p,
      nth_error (matched sample_tree) k = Some p ->
      exists a b,
        truediv_1024 (size_of sample_tree p) = inr a
        /\ truediv_1024
             (sum_sizes sample_tree (firstn (S k) (matched sample_tree)))
           = inr b
        /\ nth_error (stdout (snd (run sample_tree))) k
           = Some (lit "File " ++ p ++ lit ": " ++ format_2g a
                   ++ lit " KiB, so far at: " ++ format_2g b ++ lit " KiB")
        /\ two_sig_figs a (to_dec2 a)
        /\ two_sig_figs b (to_dec2 b).
Proof.
  apply (one_line_per_matched_file sample_tree). vm_compute. reflexivity.
Defined.

(** C5 as stated fails when a [.cs] file cannot be read: [good.cs] is a
    matched file, yet the run stops at [bad.cs] and prints no line at all. *)
Lemma no_line_for_files_after_failure :
  matched broken_tree = [lit "./good.cs"]
  /\ run broken_tree = (inl UnicodeDecodeError, initial)
  /\ stdout (snd (run broken_tree)) = []
  /\ List.length (stdout (snd (run broken_tree)))
     <> List.length (matched broken_tree).
Proof.
  repeat split; try (vm_compute; reflexivity).
  vm_compute. discriminate.
Qed.




(** *** The two-file example *)

Lemma eqb_app_l (p x y : str) : eqb (p ++ x) (p ++ y) = eqb x y.
Proof.
  induction p as [|c p IH]; cbn; [reflexivity|].
  now rewrite N.eqb_refl, IH.
Qed.

(** [join d] keeps two file names apart. *)
Lemma eqb_join (d x y : str) :
  startswith x [sep] = false -> startswith y [sep] = false ->
  eqb (join d x) (join d y) = eqb x y.
Proof.
  unfold join. intros -> ->.
  destruct (_ || _).
  - apply eqb_app_l.
  - rewrite eqb_app_l. reflexivity.
Qed.

(** A text that starts with the marker has it in its first 20 characters. *)
Lemma marker_at_start (r : str) : contains marker (take 20 (marker ++ r)) = true.
Proof.
  apply contains_iff. exists 0%nat. apply occurs_at_take.
  - unfold occurs_at. cbn [skipn].
    rewrite firstn_app, Nat.sub_diag, firstn_all. cbn [firstn].
    apply app_nil_r.
  - cbn. lia.
Qed.

(** The iteration on a readable [.cs] file that starts with the marker. *)
Lemma visit_marked (w : world) (d n r : str) (f : file) (a b : Q)
      (s : state) :
  endswith n (lit ".cs") = true ->
  fs w (join d n) = Some f -> f_open f = None ->
  f_text f = inr (marker ++ r) ->
  truediv_1024 (st_size f) = inr a ->
  truediv_1024 (size s + st_size f) = inr b ->
  print_error w (report_line (join d n) a b) = None ->
  visit w d n s
  = (inr tt, {| size := size s + st_size f;
               stdout := stdout s ++ [report_line (join d n) a b] |}).
Proof.
  intros Ext F O T Ha Hb Pr.
  assert (C : countable w (d, n) = true).
  { unfold countable, has_extension, path_of; cbn [fst snd].
    now rewrite Ext, (has_marker_text w _ f _ F O T), marker_at_start. }
  destruct (visit_cases w d n s) as [[NC _] | [[NC _] | [_ V]]];
    try congruence.
  rewrite V. unfold line_of, counted; cbn [e_path e_size e_total].
  now rewrite (size_of_file w _ f F), Ha, Hb, Pr.
Qed.

(** C7, as amended.  With [a.cs] (10240 bytes) and [b.cs] (5120 bytes) in one
    directory, both starting with the marker, the run prints exactly two
    lines.  Enumerated as [a.cs], [b.cs] the running totals read [10 KiB]
    then [15 KiB]; enumerated as [b.cs], [a.cs] they read [5 KiB] then
    [15 KiB]. *)
Theorem two_files_report (d ra rb : str) :
  run (two_files d [a_cs; b_cs] ra rb)
  = (inr tt,
     {| size := 15360;
        stdout :=
          [ lit "File " ++ join d a_cs ++ lit ": 10 KiB, so far at: 10 KiB";
            lit "File " ++ join d b_cs ++ lit ": 5 KiB, so far at: 15 KiB"
          ] |})
  /\ run (two_files d [b_cs; a_cs] ra rb)
     = (inr tt,
        {| size := 15360;
           stdout :=
             [ lit "File " ++ join d b_cs ++ lit ": 5 KiB, so far at: 5 KiB";
               lit "File " ++ join d a_cs
                 ++ lit ": 10 KiB, so far at: 15 KiB" ] |}).
Proof.
  assert (Fa : forall o, fs (two_files d o ra rb) (join d a_cs)
                         = Some (text_file (marker ++ ra) 10240)).
  { intros o. unfold two_files, tree; cbn [fs lookup].
    now rewrite eqb_refl. }
  assert (Fb : forall o, fs (two_files d o ra rb) (join d b_cs)
                         = Some (text_file (marker ++ rb) 5120)).
  { intros o. unfold two_files, tree; cbn [fs lookup].
    rewrite eqb_join by reflexivity.
    change (eqb b_cs a_cs) with false. cbv iota.
    now rewrite eqb_refl. }
  split; unfold run, main; cbn [os_walk two_files tree for_ filenames dirpath];
    unfold bind.
  - erewrite (visit_marked _ d a_cs ra);
      [|reflexivity | apply Fa | reflexivity..].
    erewrite (visit_marked _ d b_cs rb);
      [|reflexivity | apply Fb | reflexivity..].
    reflexivity.
  - erewrite (visit_marked _ d b_cs rb);
      [|reflexivity | apply Fb | reflexivity..].
    erewrite (visit_marked _ d a_cs ra);
      [|reflexivity | apply Fa | reflexivity..].
    reflexivity.
Qed.

(** C7 as stated fails in the order [b.cs], [a.cs]: the first running total
    reads [5 KiB], not [10 KiB]. *)
Lemma totals_depend_on_order :
  stdout (snd (run (two_files (lit ".") [b_cs; a_cs] [] [])))
  = [ lit "File ./b.cs: 5 KiB, so far at: 5 KiB";
      lit "File ./a.cs: 10 KiB, so far at: 15 KiB" ]
  /\ ~ (exists l1 l2,
          stdout (snd (run (two_files (lit ".") [b_cs; a_cs] [] [])))
          = [l1; l2]
          /\ endswith l1 (lit "so far at: 10 KiB") = true
          /\ endswith l2 (lit "so far at: 15 KiB") = true).
Proof.
  assert (E : stdout (snd (run (two_files (lit ".") [b_cs; a_cs] [] [])))
              = [ lit "File ./b.cs: 5 KiB, so far at: 5 KiB";
                  lit "File ./a.cs: 10 KiB, so far at: 15 KiB" ])
    by (vm_compute; reflexivity).
  split; [exact E|].
  rewrite E. intros (l1 & l2 & [= <- <-] & H1 & _).
  vm_compute in H1. discriminate H1.
Qed.

Lemma sum_sizes_nonneg (w : world) (ps : list str) :
  (forall q f, fs w q = Some f -> 0 <= st_size f) -> 0 <= sum_sizes w ps.
Proof.
  intros Pos. induction ps as [|p ps IH]; [cbn; lia|].
  rewrite sum_sizes_cons. pose proof (size_of_nonneg w p Pos). lia.
Qed.

(** C6.  When no file has a negative size, the running totals of two
    consecutive printed lines are in order: the later line reports a total
    that is at least the total of the earlier one.  This holds of the bytes
    accumulated, of the two floats handed to the format, and of the
    two-digit decimals that are printed. *)
Theorem running_total_non_decreasing (w : world) (k : nat) (l l' : str) :
  (forall p f, fs w p = Some f -> 0 <= st_size f) ->
  nth_error (stdout (snd (run w))) k = Some l ->
  nth_error (stdout (snd (run w))) (S k) = Some l' ->
  exists p p' a a' b b',
    l = report_line p a b
    /\ l' = report_line p' a' b'
    /\ truediv_1024 (sum_sizes w (firstn (S k) (matched w))) = inr b
    /\ truediv_1024 (sum_sizes w (firstn (S (S k)) (matched w))) = inr b'
    /\ sum_sizes w (firstn (S k) (matched w))
       <= sum_sizes w (firstn (S (S k)) (matched w))
    /\ (b <= b')%Q
    /\ (dec2_value (to_dec2 b) <= dec2_value (to_dec2 b'))%Q.
Proof.
  intros Pos Hl Hl'.
  destruct (stdout_nth w k l Hl) as [_ P].
  destruct (stdout_nth w (S k) l' Hl') as [Lt' P'].
  destruct (prints_entry_at w k l P) as (a & b & _ & Hb & ->).
  destruct (prints_entry_at w (S k) l' P') as (a' & b' & _ & Hb' & ->).
  exists (nth k (matched w) []), (nth (S k) (matched w) []), a, a', b, b'.
  assert (Le : sum_sizes w (firstn (S k) (matched w))
               <= sum_sizes w (firstn (S (S k)) (matched w))).
  { rewrite (sum_sizes_firstn_S w (matched w) (S k) Lt').
    pose proof (size_of_nonneg w (nth (S k) (matched w) []) Pos). lia. }
  pose proof (sum_sizes_nonneg w (firstn (S k) (matched w)) Pos) as NN.
  assert (Qb : (b <= b')%Q)
    by exact (truediv_1024_mono _ _ b b' (conj NN Le) Hb Hb').
  repeat split; auto.
  apply to_dec2_mono; [|exact Qb].
  exact (truediv_1024_nonneg _ b NN Hb).
Qed.

Lemma running_total_non_decreasing_witness :
  exists p p' a a' b b',
    lit "File ./src/Match.cs: 1.5 KiB, so far at: 3.5 KiB"
    = report_line p a b
    /\ lit "File ./src/Team.cs: 0.5 KiB, so far at: 4 KiB"
       = report_line p' a' b'
    /\ truediv_1024 (sum_sizes sample_tree (firstn 2 (matched sample_tree)))
       = inr b
    /\ truediv_1024 (sum_sizes sample_tree (firstn 3 (matched sample_tree)))
       = inr b'
    /\ sum_sizes sample_tree (firstn 2 (matched sample_tree))
       <= sum_sizes sample_tree (firstn 3 (matched sample_tree))
    /\ (b <= b')%Q
    /\ (dec2_value (to_dec2 b) <= dec2_value (to_dec2 b'))%Q.
Proof.
  apply (running_total_non_decreasing sample_tree 1).
  - intros p f. unfold sample_tree, tree; cbn [fs lookup].
    repeat (destruct (eqb p _); [intros [= <-]; cbn; lia|]).
    discriminate.
  - vm_compute. reflexivity.
  - vm_compute. reflexivity.
Defined.

(** ** Further properties of the script *)

Lemma for_ext_in {A} (l : list A) (f g : A -> M unit) :
  (forall x s, In x l -> f x s = g x s) ->
  forall s, for_ l f s = for_ l g s.
Proof.
  induction l as [|x l IH]; intros E s; [reflexivity|].
  cbn [for_]. unfold bind. rewrite (E x s (or_introl eq_refl)).
  destruct (g x s) as [[e | []] s1]; [reflexivity|].
  apply IH. intros y s2 Hy. apply E. now right.
Qed.

(** An iteration depends on the file only through what [same_head]
    compares. *)
Lemma visit_same_head (w w' : world) (d n : str) (s : state) :
  (forall l, print_error w l = print_error w' l) ->
  (endswith n (lit ".cs") = true ->
   same_head (fs w (join d n)) (fs w' (join d n))) ->
  visit w d n s = visit w' d n s.
Proof.
  intros Out.
  unfold visit, when. destruct (endswith n (lit ".cs")); [|reflexivity].
  intros H; specialize (H eq_refl).
  unfold open_r, read, os_stat, same_head in *. destruct s as [acc out].
  destruct (fs w (join d n)) as [f|], (fs w' (join d n)) as [g|];
    try contradiction; [|reflexivity].
  destruct H as (O & Z & R).
  destruct f as [fo ft fz], g as [go gt gz];
    cbn [f_open f_text st_size] in O, Z, R; subst.
  destruct go as [e|]; [reflexivity|].
  destruct ft as [x|t], gt as [y|u]; cbn [same_read] in R;
    try contradiction; subst; [reflexivity|].
  cbv beta iota zeta delta
    [bind ret raise when lift get_size set_size print
     f_open f_text st_size size stdout].
  rewrite R. destruct (contains marker (take 20 u)); [|reflexivity].
  destruct (truediv_1024 gz) as [x|a]; [reflexivity|].
  destruct (truediv_1024 (acc + gz)) as [x|b]; [reflexivity|].
  now rewrite Out.
Qed.

(** X4.  The script looks at nothing but the traversal's file names, and for
    each [.cs] file at the outcome of opening it, its size and the first 20
    characters of its text.  Two trees that agree on these give the same
    run on the same standard output: same outcome, same accumulator, same
    output.  In particular the directory names, the files without the
    extension and any text beyond the first 20 characters play no part. *)
Theorem run_depends_on_heads_only (w w' : world) :
  candidates w = candidates w' ->
  (forall l, print_error w l = print_error w' l) ->
  (forall d n,
      In (d, n) (candidates w) -> endswith n (lit ".cs") = true ->
      same_head (fs w (join d n)) (fs w' (join d n))) ->
  run w = run w'.
Proof.
  intros Cs Out Same. unfold run. rewrite !main_flat, <- Cs.
  unfold visit_all. apply for_ext_in.
  intros [d n] s Hin. cbn [fst snd].
  apply visit_same_head; [exact Out|].
  intros Ext. exact (Same d n Hin Ext).
Qed.

Lemma run_depends_on_heads_only_witness :
  run sample_tree = run sample_tree_variant.
Proof.
  apply (run_depends_on_heads_only sample_tree sample_tree_variant).
  - reflexivity.
  - reflexivity.
  - intros d n Hin Ext. cbn in Hin.
    repeat (destruct Hin as [[= <- <-] | Hin];
            [first [ vm_compute in Ext; discriminate Ext
                   | vm_compute; repeat split; reflexivity ]|]).
    contradiction.
Defined.





(** The division is defined on every total a file system can hold. *)
Lemma truediv_1024_defined (n : Z) :
  0 <= n < 2 ^ 1033 -> exists q, truediv_1024 n = inr q.
Proof.
  intros [Lo Hi]. unfold truediv_1024. rewrite Z.abs_eq by exact Lo.
  assert (B : round53 n < 2 ^ 1034).
  { destruct (Z.eq_dec n 0) as [-> | NZ]; [reflexivity|].
    pose proof (round53_binade n ltac:(lia)) as [_ Up].
    assert (L : Z.log2 n < 1033) by (apply Z.log2_lt_pow2; lia).
    assert (2 ^ (Z.log2 n + 1) <= 2 ^ 1033)
      by (apply Z.pow_le_mono_r; lia).
    assert (2 ^ 1033 < 2 ^ 1034) by (apply Z.pow_lt_mono_r; lia).
    lia. }
  destruct (Z.leb_spec (2 ^ 1034) (round53 n)); [lia|]. eauto.
Qed.

Lemma sum_sizes_firstn_le (w : world) (ps : list str) (k : nat) :
  sizes_nonneg w ->
  0 <= sum_sizes w (firstn k ps) <= sum_sizes w ps.
Proof.
  intros Pos. revert k; induction ps as [|p ps IH]; intros k.
  - rewrite firstn_nil. cbn. lia.
  - destruct k as [|k].
    + pose proof (sum_sizes_nonneg w (p :: ps) Pos).
      change (sum_sizes w (firstn 0 (p :: ps))) with 0. lia.
    + rewrite firstn_cons, !sum_sizes_cons. specialize (IH k).
      pose proof (size_of_nonneg w p Pos). lia.
Qed.

(** The loop on files that are readable, whose sizes stay within the range
    of the division and whose lines standard output accepts runs to its
    end. *)
Lemma visit_all_completes (w : world) (cs : list (str * str)) :
  sizes_nonneg w ->
  (forall d n,
      In (d, n) cs -> endswith n (lit ".cs") = true ->
      exists f t,
        fs w (join d n) = Some f /\ f_open f = None /\ f_text f = inr t) ->
  (forall d n a b,
      In (d, n) cs -> countable w (d, n) = true ->
      print_error w (report_line (join d n) a b) = None) ->
  forall s,
    0 <= size s ->
    size s + sum_sizes w (List.map path_of (filter (countable w) cs))
    < 2 ^ 1033 ->
    exists s', visit_all w cs s = (inr tt, s').
Proof.
  intros Pos. induction cs as [|[d n] cs IH]; intros Rd Pr s S0 Bound.
  - exists s. reflexivity.
  - assert (Rd' : forall d' n',
               In (d', n') cs -> endswith n' (lit ".cs") = true ->
               exists f t,
                 fs w (join d' n') = Some f /\ f_open f = None
                 /\ f_text f = inr t).
    { intros d' n' I. apply Rd. now right. }
    assert (Pr' : forall d' n' a b,
               In (d', n') cs -> countable w (d', n') = true ->
               print_error w (report_line (join d' n') a b) = None).
    { intros d' n' a b I. apply Pr. now right. }
    unfold visit_all. cbn [for_ fst snd]. unfold bind.
    fold (visit_all w cs). cbn [filter] in Bound.
    destruct (visit_cases w d n s)
      as [[NC V] | [[_ [Ext [x [U _]]]] | [C V]]].
    + rewrite V. rewrite NC in Bound. exact (IH Rd' Pr' s S0 Bound).
    + exfalso. destruct (Rd d n (or_introl eq_refl) Ext) as (f & t & F & O & T).
      unfold unreadable in U. rewrite F in U.
      destruct U as [U | [_ U]]; congruence.
    + rewrite V. rewrite C in Bound.
      cbn [List.map] in Bound. rewrite sum_sizes_cons in Bound.
      unfold path_of in Bound at 1; cbn [fst snd] in Bound.
      pose proof (size_of_nonneg w (join d n) Pos) as Sz.
      pose proof (sum_sizes_nonneg w
                    (List.map path_of (filter (countable w) cs)) Pos) as Rest.
      destruct (truediv_1024_defined (size_of w (join d n)) ltac:(lia))
        as [a Ha].
      destruct (truediv_1024_defined (size s + size_of w (join d n))
                  ltac:(lia)) as [b Hb].
      unfold line_of, counted; cbn [e_path e_size e_total].
      rewrite Ha, Hb, (Pr d n a b (or_introl eq_refl) C).
      apply IH; [exact Rd' | exact Pr' | cbn [size]; lia | cbn [size]; lia].
Qed.

(** X2.  The run reaches the end of the traversal without an exception
    whenever every [.cs] file can be opened and decoded, no size is
    negative, the matched sizes add up to less than [2 ^ 1033] bytes, and
    standard output accepts the line of every matched file. *)
Theorem run_completes (w : world) :
  all_readable w -> sizes_nonneg w ->
  sum_sizes w (matched w) < 2 ^ 1033 ->
  lines_printable w ->
  exists s, run w = (inr tt, s).
Proof.
  intros Rd Pos Bound Pr. unfold run. rewrite main_flat.
  apply visit_all_completes; auto.
  - intros d n a b I C. apply Pr.
    unfold matched. apply in_map_iff. exists (d, n).
    split; [reflexivity|]. apply filter_In. auto.
  - cbn. lia.
Qed.

(** The loop on readable files none of which is countable does nothing. *)
Lemma visit_all_quiet (w : world) (cs : list (str * str)) (s : state) :
  (forall d n,
      In (d, n) cs -> endswith n (lit ".cs") = true ->
      exists f t,
        fs w (join d n) = Some f /\ f_open f = None /\ f_text f = inr t) ->
  filter (countable w) cs = [] ->
  visit_all w cs s = (inr tt, s).
Proof.
  induction cs as [|[d n] cs IH]; intros Rd Nil; [reflexivity|].
  unfold visit_all. cbn [for_ fst snd]. unfold bind. fold (visit_all w cs).
  cbn [filter] in Nil.
  destruct (visit_cases w d n s)
    as [[NC V] | [[_ [Ext [x [U _]]]] | [C _]]].
  - rewrite V. rewrite NC in Nil. apply IH; [|exact Nil].
    intros d' n' I. apply Rd. now right.
  - exfalso. destruct (Rd d n (or_introl eq_refl) Ext) as (f & t & F & O & T).
    unfold unreadable in U. rewrite F in U.
    destruct U as [U | [_ U]]; congruence.
  - rewrite C in Nil. discriminate Nil.
Qed.

(** X1.  When every [.cs] file is readable, the run is silent exactly when
    no file is matched: it then ends normally with no output and with the
    accumulator at 0, whatever the other files are. *)
Theorem silent_iff_nothing_matched (w : world) :
  all_readable w ->
  (matched w = [] <-> run w = (inr tt, initial)).
Proof.
  intros Rd. split.
  - intros Nil. unfold run. rewrite main_flat.
    apply visit_all_quiet; [exact Rd|].
    unfold matched in Nil. now apply map_eq_nil in Nil.
  - intros Run. destruct (run_sim w _ _ Run) as (_ & _ & Fin & _).
    destruct (Fin eq_refl) as [Len _]. cbn in Len.
    destruct (matched w); [reflexivity | discriminate Len].
Qed.

(** Facts about a concrete tree, by going through its files. *)
Ltac each_candidate Hin Ext tac :=
  cbn in Hin;
  repeat (destruct Hin as [[= <- <-] | Hin];
          [first [ vm_compute in Ext; discriminate Ext | tac ]|]);
  try contradiction.

Ltac each_file p :=
  unfold tree; cbn [fs lookup];
  repeat (destruct (eqb p _); [intros [= <-]; cbn; lia|]);
  discriminate.

Lemma run_completes_witness : exists s, run sample_tree = (inr tt, s).
Proof.
  apply (run_completes sample_tree).
  - intros d n Hin Ext.
    each_candidate Hin Ext ltac:(do 2 eexists; repeat split; reflexivity).
  - intros p f. unfold sample_tree. each_file p.
  - vm_compute. reflexivity.
  - intros p a b _. reflexivity.
Defined.

Lemma silent_iff_nothing_matched_witness :
  run quiet_tree = (inr tt, initial).
Proof.
  apply (silent_iff_nothing_matched quiet_tree).
  - intros d n Hin Ext.
    each_candidate Hin Ext ltac:(do 2 eexists; repeat split; reflexivity).
  - vm_compute. reflexivity.
Defined.

(** X7.  When no size is negative and no division overflows, the
    accumulator at the end of the run, however it ends, lies between 0 and
    the sum of the sizes of all matched files: a run cut short by an
    unreadable file never shows more than the full total. *)
Theorem accumulator_within_total (w : world) :
  sizes_nonneg w ->
  fst (run w) <> inl OverflowError ->
  0 <= size (snd (run w)) <= sum_sizes w (matched w).
Proof.
  intros Pos NoOv. destruct (run w) as [r s] eqn:Run. cbn [fst snd] in *.
  destruct (run_sim w r s Run) as (_ & _ & _ & [Acc | (_ & _ & Acc)]);
    rewrite Acc; apply sum_sizes_firstn_le; exact Pos.
Qed.

Lemma accumulator_within_total_witness :
  0 <= size (snd (run locked_tree))
  <= sum_sizes locked_tree (matched locked_tree).
Proof.
  apply (accumulator_within_total locked_tree).
  - intros p f. unfold locked_tree. each_file p.
  - vm_compute. discriminate.
Defined.

(** X8.  On a run that ends without an exception and prints something, the
    total on the last line is the final value of the accumulator, divided by
    1024: the last line shows the grand total. *)
Theorem last_line_shows_grand_total (w : world) (s : state) (l : str) :
  run w = (inr tt, s) ->
  nth_error (stdout s) (List.length (stdout s) - 1) = Some l ->
  exists p a b,
    l = report_line p a b
    /\ truediv_1024 (size s) = inr b
    /\ size s = sum_sizes w (matched w).
Proof.
  intros Run Hl.
  destruct (run_sim w _ _ Run) as (_ & _ & Fin & _).
  destruct (Fin eq_refl) as [Len Tot].
  assert (Hl' : nth_error (stdout (snd (run w)))
                          (List.length (stdout s) - 1) = Some l)
    by now rewrite Run.
  destruct (stdout_nth w _ l Hl') as [Lt P].
  destruct (prints_entry_at w _ l P) as (a & b & _ & Hb & E).
  exists (nth (List.length (stdout s) - 1) (matched w) []), a, b.
  split; [exact E|]. split; [|exact Tot].
  rewrite Tot, <- Hb. do 2 f_equal.
  replace (S (List.length (stdout s) - 1)) with (List.length (matched w))
    by lia.
  symmetry. apply firstn_all.
Qed.

Lemma last_line_shows_grand_total_witness :
  exists p a b,
    lit "File ./src/Team.cs: 0.5 KiB, so far at: 4 KiB" = report_line p a b
    /\ truediv_1024 4096 = inr b
    /\ 4096 = sum_sizes sample_tree (matched sample_tree).
Proof.
  apply (last_line_shows_grand_total sample_tree
           {| size := 4096;
              stdout :=
                [ lit "File ./Main.cs: 2 KiB, so far at: 2 KiB";
                  lit "File ./src/Match.cs: 1.5 KiB, so far at: 3.5 KiB";
                  lit "File ./src/Team.cs: 0.5 KiB, so far at: 4 KiB" ] |}).
  - vm_compute. reflexivity.
  - reflexivity.
Defined.

(** [join] puts something in front of the file name and keeps the name. *)
Lemma join_suffix (d n : str) : exists pre, join d n = pre ++ n.
Proof.
  unfold join. destruct (startswith n [sep]); [exists []; reflexivity|].
  destruct (_ || _); [exists d; reflexivity|].
  exists (d ++ [sep]). now rewrite <- app_assoc.
Qed.

Lemma endswith_join (d n suf : str) :
  endswith n suf = true -> endswith (join d n) suf = true.
Proof.
  rewrite !endswith_iff. intros [pre ->].
  destruct (join_suffix d (pre ++ suf)) as [q ->].
  exists (q ++ pre). now rewrite app_assoc.
Qed.

(** The matched paths come from files of the traversal that have the
    extension. *)
Lemma matched_origin (w : world) (p : str) :
  In p (matched w) ->
  exists d n,
    In (d, n) (candidates w) /\ endswith n (lit ".cs") = true
    /\ p = join d n.
Proof.
  unfold matched. rewrite in_map_iff. intros ([d n] & <- & I).
  apply filter_In in I. destruct I as [I C].
  unfold countable, has_extension in C; cbn [snd] in C.
  apply andb_true_iff in C. destruct C as [Ext _].
  exists d, n. auto.
Qed.

(** X9.  Every printed line reports a file that the traversal listed and
    whose name ends with [.cs]; the path shown is the directory joined with
    that name, so it ends with [.cs] too. *)
Theorem reported_paths_are_cs_files (w : world) (k : nat) (l : str) :
  nth_error (stdout (snd (run w))) k = Some l ->
  exists d n a b,
    In (d, n) (candidates w)
    /\ endswith n (lit ".cs") = true
    /\ endswith (join d n) (lit ".cs") = true
    /\ l = report_line (join d n) a b.
Proof.
  intros Hl. destruct (stdout_nth w k l Hl) as [Lt P].
  destruct (prints_entry_at w k l P) as (a & b & _ & _ & E).
  destruct (matched_origin w (nth k (matched w) []))
    as (d & n & I & Ext & Path); [apply nth_In; exact Lt|].
  exists d, n, a, b. rewrite <- Path.
  repeat split; auto. rewrite Path. now apply endswith_join.
Qed.

Lemma reported_paths_are_cs_files_witness :
  exists d n a b,
    In (d, n) (candidates sample_tree)
    /\ endswith n (lit ".cs") = true
    /\ endswith (join d n) (lit ".cs") = true
    /\ lit "File ./src/Match.cs: 1.5 KiB, so far at: 3.5 KiB"
       = report_line (join d n) a b.
Proof.
  apply (reported_paths_are_cs_files sample_tree 1).
  vm_compute. reflexivity.
Defined.

(** X10.  Every printed line starts with [File ] and ends with [ KiB]. *)
Theorem lines_have_fixed_frame (w : world) (k : nat) (l : str) :
  nth_error (stdout (snd (run w))) k = Some l ->
  startswith l (lit "File ") = true /\ endswith l (lit " KiB") = true.
Proof.
  intros Hl. destruct (stdout_nth w k l Hl) as [_ P].
  destruct (prints_entry_at w k l P) as (a & b & _ & _ & ->).
  unfold report_line. split.
  - apply startswith_app.
  - apply endswith_iff.
    exists (lit "File " ++ nth k (matched w) [] ++ lit ": " ++ format_2g a
            ++ lit " KiB, so far at: " ++ format_2g b).
    now rewrite <- !app_assoc.
Qed.

Lemma lines_have_fixed_frame_witness :
  startswith (lit "File ./Main.cs: 2 KiB, so far at: 2 KiB") (lit "File ")
  = true
  /\ endswith (lit "File ./Main.cs: 2 KiB, so far at: 2 KiB") (lit " KiB")
     = true.
Proof.
  apply (lines_have_fixed_frame sample_tree 0). vm_compute. reflexivity.
Defined.

(** *** The order of the traversal *)

Lemma filter_ext_in {A} (f g : A -> bool) (l : list A) :
  (forall x, In x l -> f x = g x) -> filter f l = filter g l.
Proof.
  induction l as [|x l IH]; intros E; [reflexivity|].
  cbn. rewrite (E x (or_introl eq_refl)), IH; [reflexivity|].
  intros y Hy. apply E. now right.
Qed.

Lemma Permutation_filter_keeps {A} (f : A -> bool) (l l' : list A) :
  Permutation l l' -> Permutation (filter f l) (filter f l').
Proof.
  induction 1 as [|x l l' _ IH|x y l|l l' l'' _ IH1 _ IH2]; cbn.
  - constructor.
  - destruct (f x); [now constructor | exact IH].
  - destruct (f x), (f y); try apply Permutation_refl.
    constructor.
  - now transitivity (filter f l').
Qed.

Lemma sum_sizes_Permutation (w : world) (ps ps' : list str) :
  Permutation ps ps' -> sum_sizes w ps = sum_sizes w ps'.
Proof.
  induction 1 as [|x l l' _ IH|x y l|l l' l'' _ IH1 _ IH2].
  - reflexivity.
  - rewrite !sum_sizes_cons. lia.
  - rewrite !sum_sizes_cons. lia.
  - lia.
Qed.

Lemma sum_sizes_same_fs (w w' : world) (ps : list str) :
  (forall p, fs w p = fs w' p) -> sum_sizes w ps = sum_sizes w' ps.
Proof.
  intros E. induction ps as [|p ps IH]; [reflexivity|].
  rewrite !sum_sizes_cons, IH. unfold size_of. now rewrite E.
Qed.

(** The matched files of two enumerations of the same files. *)
Lemma matched_Permutation (w w' : world) :
  Permutation (candidates w) (candidates w') ->
  (forall p, fs w p = fs w' p) ->
  Permutation (matched w) (matched w').
Proof.
  intros Perm E. unfold matched. apply Permutation_map.
  rewrite (filter_ext_in (countable w') (countable w) (candidates w')).
  - now apply Permutation_filter_keeps.
  - intros c _. unfold countable, has_marker. now rewrite E.
Qed.

(** X5.  The grand total and the number of lines do not depend on the order
    in which the platform enumerates the files: two runs over the same files
    in different orders, both ending without an exception, end with the same
    accumulator and have printed the same number of lines. *)
Theorem grand_total_order_independent (w w' : world) (s s' : state) :
  Permutation (candidates w) (candidates w') ->
  (forall p, fs w p = fs w' p) ->
  run w = (inr tt, s) -> run w' = (inr tt, s') ->
  size s = size s'
  /\ List.length (stdout s) = List.length (stdout s').
Proof.
  intros Perm E Run Run'.
  destruct (run_sim w _ _ Run) as (_ & _ & Fin & _).
  destruct (run_sim w' _ _ Run') as (_ & _ & Fin' & _).
  destruct (Fin eq_refl) as [Len Tot].
  destruct (Fin' eq_refl) as [Len' Tot'].
  pose proof (matched_Permutation w w' Perm E) as PM.
  split.
  - rewrite Tot, Tot', (sum_sizes_Permutation w _ _ PM).
    now apply sum_sizes_same_fs.
  - rewrite Len, Len'. now apply Permutation_length.
Qed.

Lemma grand_total_order_independent_witness :
  size (snd (run (two_files (lit ".") [a_cs; b_cs] [] [])))
  = size (snd (run (two_files (lit ".") [b_cs; a_cs] [] [])))
  /\ List.length (stdout (snd (run (two_files (lit ".") [a_cs; b_cs] [] []))))
     = List.length
         (stdout (snd (run (two_files (lit ".") [b_cs; a_cs] [] [])))).
Proof.
  apply (grand_total_order_independent
           (two_files (lit ".") [a_cs; b_cs] [] [])
           (two_files (lit ".") [b_cs; a_cs] [] [])).
  - apply perm_swap.
  - reflexivity.
  - vm_compute. reflexivity.
  - vm_compute. reflexivity.
Defined.

(** *** Plain and exponent notation *)

Lemma in_firstn_in {A} (n : nat) (l : list A) (x : A) :
  In x (firstn n l) -> In x l.
Proof.
  intros H. rewrite <- (firstn_skipn n l). apply in_or_app. now left.
Qed.

Lemma in_skipn_in {A} (n : nat) (l : list A) (x : A) :
  In x (skipn n l) -> In x l.
Proof.
  intros H. rewrite <- (firstn_skipn n l). apply in_or_app. now right.
Qed.

Lemma digit_not_e (d : Z) : 0 <= d <= 9 -> digit d <> letter_e.
Proof.
  unfold digit, letter_e. intros B E.
  apply (f_equal Z.of_N) in E. rewrite Z2N.id in E by lia.
  change (Z.of_N 101) with 101 in E. lia.
Qed.

Lemma digits_of_not_e (m : Z) (c : char) :
  0 <= m <= 99 -> In c (digits_of m) -> c <> letter_e.
Proof.
  intros B. unfold digits_of.
  assert (0 <= m / 10 <= 9).
  { split; [apply Z.div_pos; lia|].
    apply Z.lt_succ_r, Z.div_lt_upper_bound; lia. }
  pose proof (Z.mod_pos_bound m 10 ltac:(lia)).
  destruct (m mod 10 =? 0); cbn [In].
  - intros [<- | []]. now apply digit_not_e.
  - intros [<- | [<- | []]]; apply digit_not_e; lia.
Qed.

Lemma zeros_not_e (k : Z) (c : char) : In c (zeros k) -> c <> letter_e.
Proof.
  unfold zeros. intros H. apply repeat_spec in H. subst c.
  apply digit_not_e. lia.
Qed.

(** The digits and exponent of a positive float, as [to_dec2] leaves
    them. *)
Lemma to_dec2_pos_shape (n : Z) (d : positive) :
  0 < n ->
  neg (to_dec2 (Qmake n d)) = false
  /\ 10 <= mant (to_dec2 (Qmake n d)) <= 99.
Proof.
  intros Hn.
  destruct (to_dec2_pos n d _ _ Hn eq_refl eq_refl) as [[Lo Hi] E].
  rewrite E. clear E.
  set (m := round_half_even _ _) in *.
  destruct (Z.eqb_spec m 100); cbn [neg mant]; split; auto; lia.
Qed.

(** What a [dec2] without sign denotes, compared with an integer and with a
    fraction. *)
Lemma dec2_value_unsigned (x : dec2) :
  neg x = false ->
  dec2_value x
  = Qmake (mant x * 10 ^ Z.max 0 (exp10 x - 1))
          (Z.to_pos (10 ^ Z.max 0 (1 - exp10 x))).
Proof. unfold dec2_value. now intros ->. Qed.

(** From 99.5 KiB on, the exponent is at least 2. *)
Lemma exp10_large (x : dec2) :
  neg x = false -> 10 <= mant x <= 99 ->
  (Qmake 100 1 <= dec2_value x)%Q -> 2 <= exp10 x.
Proof.
  intros N M. rewrite (dec2_value_unsigned x N).
  unfold Qle; cbn [Qnum Qden]. rewrite to_pos_pow10. intros H.
  destruct (Z.le_gt_cases 2 (exp10 x)) as [|Small]; [assumption | exfalso].
  rewrite (Z.max_l 0 (exp10 x - 1)) in H by lia.
  rewrite Z.pow_0_r in H.
  pose proof (pow10_pos (1 - exp10 x)). nia.
Qed.

(** Up to 99 KiB, it is at most 1. *)
Lemma exp10_small (x : dec2) :
  neg x = false -> 10 <= mant x <= 99 ->
  (dec2_value x <= Qmake 99 1)%Q -> exp10 x <= 1.
Proof.
  intros N M. rewrite (dec2_value_unsigned x N).
  unfold Qle; cbn [Qnum Qden]. rewrite to_pos_pow10. intros H.
  destruct (Z.le_gt_cases (exp10 x) 1) as [|Big]; [assumption | exfalso].
  rewrite (Z.max_l 0 (1 - exp10 x)) in H by lia.
  rewrite Z.pow_0_r in H.
  assert (P : 10 ^ 1 <= 10 ^ Z.max 0 (exp10 x - 1))
    by (apply Z.pow_le_mono_r; lia).
  change (10 ^ 1) with 10 in P. nia.
Qed.

(** From one byte on, it is at least -4. *)
Lemma exp10_not_tiny (x : dec2) :
  neg x = false -> 10 <= mant x <= 99 ->
  (Qmake 98 100000 <= dec2_value x)%Q -> -4 <= exp10 x.
Proof.
  intros N M. rewrite (dec2_value_unsigned x N).
  unfold Qle; cbn [Qnum Qden]. rewrite to_pos_pow10. intros H.
  destruct (Z.le_gt_cases (-4) (exp10 x)) as [|Tiny]; [assumption | exfalso].
  rewrite (Z.max_l 0 (exp10 x - 1)) in H by lia.
  rewrite Z.pow_0_r in H.
  assert (P : 10 ^ 6 <= 10 ^ Z.max 0 (1 - exp10 x))
    by (apply Z.pow_le_mono_r; lia).
  change (10 ^ 6) with 1000000 in P. nia.
Qed.

(** The quotient of a small positive integer is exact. *)
Lemma truediv_1024_small (n : Z) (q : Q) :
  0 < n < 2 ^ 53 -> truediv_1024 n = inr q -> q = Qmake n 1024.
Proof.
  intros [Lo Hi]. unfold truediv_1024.
  rewrite Z.abs_eq, Z.sgn_pos by lia.
  rewrite round53_small, Z.mul_1_l.
  - destruct (_ <=? _); [discriminate|]. now intros [= <-].
  - assert (Z.log2 n < 53) by (apply Z.log2_lt_pow2; lia). lia.
Qed.

(** X11.  A size or total of at least 101888 bytes (99.5 KiB) is printed in
    exponent notation: its text has the form [<digits>e+<exponent>], as in
    [1e+02 KiB]. *)
Theorem exponent_notation_from_99_5_KiB (n : Z) (q : Q) :
  101888 <= n -> truediv_1024 n = inr q ->
  2 <= exp10 (to_dec2 q)
  /\ exists ds ex, format_2g q = ds ++ lit "e+" ++ ex.
Proof.
  intros Hn Hq.
  assert (Le : (Qmake 101888 1024 <= q)%Q)
    by exact (truediv_1024_mono 101888 n _ q ltac:(lia) eq_refl Hq).
  assert (Pos : 0 < Qnum q).
  { unfold Qle in Le; cbn [Qnum Qden] in Le. lia. }
  destruct q as [r d]. cbn [Qnum] in Pos.
  destruct (to_dec2_pos_shape r d Pos) as [N M].
  pose proof (to_dec2_mono (Qmake 101888 1024) (Qmake r d)
                ltac:(discriminate) Le) as Mo.
  change (dec2_value (to_dec2 (Qmake 101888 1024))) with (Qmake 100 1) in Mo.
  pose proof (exp10_large _ N M Mo) as E.
  split; [exact E|].
  unfold format_2g, render. rewrite N.
  set (x := to_dec2 (Qmake r d)) in *.
  destruct (Z.leb_spec (exp10 x + 1) (-4)); [lia|].
  destruct (Z.ltb_spec 2 (exp10 x + 1)); [|lia]. cbn [orb].
  unfold exp_field. destruct (Z.ltb_spec (exp10 x) 0); [lia|].
  eexists (firstn 1 (digits_of (mant x))
           ++ match skipn 1 (digits_of (mant x)) with
              | [] => []
              | t => lit "." ++ t
              end), _.
  cbn [app]. rewrite <- !app_assoc. reflexivity.
Qed.

Lemma exponent_notation_from_99_5_KiB_witness :
  2 <= exp10 (to_dec2 (Qmake 153600 1024))
  /\ exists ds ex, format_2g (Qmake 153600 1024) = ds ++ lit "e+" ++ ex.
Proof.
  apply (exponent_notation_from_99_5_KiB 153600).
  - lia.
  - reflexivity.
Defined.

(** X12.  A size or total below 101888 bytes is printed in plain decimal
    notation: its text holds no [e]. *)
Theorem plain_notation_below_99_5_KiB (n : Z) (q : Q) :
  0 <= n < 101888 -> truediv_1024 n = inr q ->
  ~ In letter_e (format_2g q).
Proof.
  intros [Lo Hi] Hq.
  destruct (Z.eq_dec n 0) as [-> | NZ].
  { injection Hq as <-. vm_compute. intros [H | []]. discriminate H. }
  assert (Small : 0 < n < 2 ^ 53).
  { split; [lia|]. apply Z.lt_trans with (1 := Hi). reflexivity. }
  rewrite (truediv_1024_small n q Small Hq). clear Hq Small.
  destruct (to_dec2_pos_shape n 1024 ltac:(lia)) as [N M].
  pose proof (to_dec2_mono (Qmake n 1024) (Qmake 101887 1024)) as Up.
  change (dec2_value (to_dec2 (Qmake 101887 1024))) with (Qmake 99 1) in Up.
  assert (U : (dec2_value (to_dec2 (Qmake n 1024)) <= Qmake 99 1)%Q).
  { apply Up; unfold Qle; cbn [Qnum Qden]; lia. }
  pose proof (to_dec2_mono (Qmake 1 1024) (Qmake n 1024)) as Dn.
  change (dec2_value (to_dec2 (Qmake 1 1024)))
    with (Qmake 98 100000) in Dn.
  assert (L : (Qmake 98 100000 <= dec2_value (to_dec2 (Qmake n 1024)))%Q).
  { apply Dn; unfold Qle; cbn [Qnum Qden]; lia. }
  pose proof (exp10_small _ N M U) as E1.
  pose proof (exp10_not_tiny _ N M L) as E2.
  unfold format_2g, render. rewrite N.
  set (x := to_dec2 (Qmake n 1024)) in *.
  destruct (Z.leb_spec (exp10 x + 1) (-4)); [lia|].
  destruct (Z.ltb_spec 2 (exp10 x + 1)); [lia|]. cbn [orb app].
  assert (D : forall c, In c (digits_of (mant x)) -> c <> letter_e)
    by (intros c; apply digits_of_not_e; lia).
  destruct (exp10 x + 1 <=? 0).
  - rewrite !in_app_iff. intros [I | [I | I]].
    + cbn in I. destruct I as [I | [I | []]]; discriminate I.
    + exact (zeros_not_e _ _ I eq_refl).
    + exact (D _ I eq_refl).
  - destruct (_ <=? _).
    + rewrite in_app_iff. intros [I | I].
      * exact (D _ I eq_refl).
      * exact (zeros_not_e _ _ I eq_refl).
    + rewrite !in_app_iff. intros [I | [I | I]].
      * exact (D _ (in_firstn_in _ _ _ I) eq_refl).
      * cbn in I. destruct I as [I | []]. discriminate I.
      * exact (D _ (in_skipn_in _ _ _ I) eq_refl).
Qed.

Lemma plain_notation_below_99_5_KiB_witness :
  ~ In letter_e (format_2g (Qmake 101887 1024)).
Proof.
  apply (plain_notation_below_99_5_KiB 101887).
  - lia.
  - reflexivity.
Defined.
